(** * Paulbot2: motion control of the quadruped (servos.py, gaits.py)

    A shallow embedding of the servo bank ([servos.py]), the joint
    configuration tables ([servo_config.py]) and the gait controller
    ([gaits.py]).  Python numbers (ints and floats alike) are idealised as
    real numbers; [int(x)] is truncation toward zero, [x % 1.0] the
    fractional part.  Python dicts that are only looked up or updated by key
    are finite maps; dict literals that are iterated are association lists
    in their insertion order. *)

From Stdlib Require Import Reals Lra Lia ZArith List String.
From stdpp Require Import base option gmap strings.
Import ListNotations.
Open Scope R_scope.
Open Scope string_scope.

(** ** Numbers *)

(** Python's [int(x)] on a float: truncation toward zero. *)
Definition py_int (x : R) : Z :=
  if Rle_dec 0 x then Int_part x else (- Int_part (- x))%Z.

(** Python's [x % 1.0]: the result has the sign of the divisor. *)
Definition mod1 (x : R) : R := frac_part x.

#[global] Instance R_inhabited : Inhabited R := populate 0.

(** A dict literal with number values, in insertion order. *)
Abbreviation positions := (list (string * R)).

(** ** servo_config.py *)

Module Config.

Definition FEMUR_SERVOS : list string := ["R1"; "R2"; "L1"; "L2"].
Definition KNEE_SERVOS : list string := ["R3"; "R4"; "L3"; "L4"].
Definition ALL_SERVOS : list string := FEMUR_SERVOS ++ KNEE_SERVOS.

Definition SERVO_PINS : gmap string Z :=
  list_to_map [("R2", 26%Z); ("L2", 33%Z); ("R1", 25%Z); ("L1", 32%Z);
               ("R4", 13%Z); ("L4", 27%Z); ("R3", 14%Z); ("L3", 12%Z)].

Definition SERVO_INVERTED : gmap string bool :=
  list_to_map [("R1", false); ("R2", false); ("L1", true); ("L2", true);
               ("R3", false); ("R4", true); ("L3", true); ("L4", false)].

Definition SERVO_LIMITS : gmap string (R * R) :=
  list_to_map [("R1", (0, 180)); ("R2", (0, 180)); ("L1", (0, 180));
               ("L2", (0, 180)); ("R3", (0, 180)); ("R4", (0, 180));
               ("L3", (0, 180)); ("L4", (0, 180))].

Definition SERVO_CENTER : gmap string R :=
  list_to_map [("R1", 90); ("R2", 90); ("L1", 90); ("L2", 90);
               ("R3", 90); ("R4", 90); ("L3", 90); ("L4", 90)].

Definition SERVO_SPEED : gmap string R :=
  list_to_map [("R1", 0.15); ("R2", 0.15); ("L1", 0.15); ("L2", 0.15);
               ("R3", 0.12); ("R4", 0.12); ("L3", 0.12); ("L4", 0.12)].

Definition SPEED_MULTIPLIER : R := 1.0.

Definition GAIT : gmap string R :=
  list_to_map [("STAND_FEMUR", 90); ("STAND_KNEE", 180); ("SPLAY_KNEE", 90);
               ("STEP_LIFT", 110); ("STEP_PLANT", 180); ("STEP_FWD", 115);
               ("STEP_BACK", 65)].

End Config.

(** ** servos.py: class Servo *)

Record Servo := mkServo {
  name : string;
  pin_num : Z;
  inverted : bool;
  min_angle : R;
  max_angle : R;
  center : R;
  current_angle : R;
  target_angle : R;
  (** the last value handed to [pwm.duty_u16] *)
  pwm_duty : Z;
}.

Module Servo.

Definition PWM_FREQ : R := 50.
Definition MIN_US : R := 500.
Definition MAX_US : R := 2500.

(** [max(self.min_angle, min(self.max_angle, angle))] *)
Definition clamp (s : Servo) (angle : R) : R :=
  Rmax (min_angle s) (Rmin (max_angle s) angle).

Definition _angle_to_duty (s : Servo) (angle : R) : Z :=
  let angle := if inverted s then 180 - angle else angle in
  let pulse_us := MIN_US + (angle / 180.0) * (MAX_US - MIN_US) in
  let period_us := 1000000 / PWM_FREQ in
  py_int ((pulse_us / period_us) * 65535).

Definition _write_angle (s : Servo) (angle : R) : Servo :=
  let angle := clamp s angle in
  let duty := _angle_to_duty s angle in
  {| name := name s; pin_num := pin_num s; inverted := inverted s;
     min_angle := min_angle s; max_angle := max_angle s; center := center s;
     current_angle := angle; target_angle := target_angle s;
     pwm_duty := duty |}.

Definition __init__ (name : string) (pin_num : Z) (inverted : bool)
    (limits : R * R) (center : R) : Servo :=
  _write_angle
    {| name := name; pin_num := pin_num; inverted := inverted;
       min_angle := fst limits; max_angle := snd limits; center := center;
       current_angle := center; target_angle := center; pwm_duty := 0 |}
    center.

Definition set_angle (s : Servo) (angle : R) (immediate : bool) : Servo :=
  let angle := clamp s angle in
  let s := {| name := name s; pin_num := pin_num s; inverted := inverted s;
              min_angle := min_angle s; max_angle := max_angle s;
              center := center s; current_angle := current_angle s;
              target_angle := angle; pwm_duty := pwm_duty s |} in
  if immediate then _write_angle s angle else s.

(** The [speed=None] default of [update]. *)
Definition default_speed (s : Servo) : R :=
  default 0.15 (Config.SERVO_SPEED !! name s) * 360 * Config.SPEED_MULTIPLIER.

(** [update(delta_time, speed)]: the new servo and the moving flag. *)
Definition update (s : Servo) (delta_time : R) (speed : option R)
    : Servo * bool :=
  let speed := default (default_speed s) speed in
  if Rlt_dec (Rabs (current_angle s - target_angle s)) 0.5 then (s, false)
  else
    let max_step := speed * delta_time in
    let diff := target_angle s - current_angle s in
    let step := Rmax (- max_step) (Rmin max_step diff) in
    let new_angle := current_angle s + step in
    (_write_angle s new_angle, true).

Definition detach (s : Servo) : Servo :=
  {| name := name s; pin_num := pin_num s; inverted := inverted s;
     min_angle := min_angle s; max_angle := max_angle s; center := center s;
     current_angle := current_angle s; target_angle := target_angle s;
     pwm_duty := 0 |}.

Definition attach (s : Servo) : Servo := _write_angle s (current_angle s).

End Servo.

(** ** servos.py: class ServoController *)

(** [self.servos]: the dict from joint name to its [Servo] object. *)
Abbreviation bank := (gmap string Servo).

Module ServoController.

Definition LEGS : gmap string (string * string) :=
  list_to_map [("FR", ("R1", "R3")); ("FL", ("L1", "L3"));
               ("BR", ("R2", "R4")); ("BL", ("L2", "L4"))].

Definition make_servo (name : string) : Servo :=
  Servo.__init__ name
    (Config.SERVO_PINS !!! name)
    (default false (Config.SERVO_INVERTED !! name))
    (default (0, 180) (Config.SERVO_LIMITS !! name))
    (default 90 (Config.SERVO_CENTER !! name)).

Definition __init__ : bank :=
  foldl (fun servos name => <[name := make_servo name]> servos)
        ∅ Config.ALL_SERVOS.

Definition get_servo (servos : bank) (name : string) : option Servo :=
  servos !! name.

Definition set_servo (servos : bank) (name : string) (angle : R)
    (immediate : bool) : bank :=
  match servos !! name with
  | Some s => <[name := Servo.set_angle s angle immediate]> servos
  | None => servos
  end.

Definition set_leg (servos : bank) (leg_name : string)
    (femur_angle knee_angle : R) (immediate : bool) : bank :=
  match LEGS !! leg_name with
  | Some (femur_name, knee_name) =>
      set_servo (set_servo servos femur_name femur_angle immediate)
                knee_name knee_angle immediate
  | None => servos
  end.

Definition set_all (servos : bank) (angle : R) (immediate : bool) : bank :=
  (fun s => Servo.set_angle s angle immediate) <$> servos.

Definition center_all (servos : bank) (immediate : bool) : bank :=
  map_imap (fun name s =>
    Some (Servo.set_angle s (Config.SERVO_CENTER !!! name) immediate)) servos.

(** [update_all]: every servo is stepped; the flag is true when some servo
    reported that it is still moving. *)
Definition update_all (servos : bank) (delta_time : R) : bank * bool :=
  ((fun s => fst (Servo.update s delta_time None)) <$> servos,
   bool_decide (map_Exists
     (fun _ s => snd (Servo.update s delta_time None) = true) servos)).

Definition set_positions (servos : bank) (pos : positions)
    (immediate : bool) : bank :=
  foldl (fun servos '(name, angle) => set_servo servos name angle immediate)
        servos pos.

Definition get_positions (servos : bank) : gmap string R :=
  current_angle <$> servos.

Definition get_targets (servos : bank) : gmap string R :=
  target_angle <$> servos.

Definition detach_all (servos : bank) : bank := Servo.detach <$> servos.
Definition attach_all (servos : bank) : bank := Servo.attach <$> servos.

End ServoController.

(** ** The clock of MicroPython's [time] module

    [time.ticks_ms()] is read by the caller and passed in as [now]: one
    reading per call of the API, also where [update] reads the clock and
    [_next] reads it again right after.  [time.ticks_diff] belongs to the
    runtime and is an interface here. *)

Class Ticks := ticks_diff : Z -> Z -> Z.

(** MicroPython's documented [ticks_diff], for a tick counter of period
    [2^30]: the signed distance on the ring of tick values. *)
Definition TICKS_PERIOD : Z := 2 ^ 30.

Definition micropython_ticks : Ticks := fun t1 t2 =>
  ((t1 - t2 + TICKS_PERIOD / 2) mod TICKS_PERIOD - TICKS_PERIOD / 2)%Z.

(** ** gaits.py: class GaitController *)

(** One entry of a movement sequence: [(positions or None, seconds)]. *)
Abbreviation keyframe := (option positions * R)%type.

Record GaitController := mkGait {
  servos : bank;
  is_walking : bool;
  walk_phase : R;
  walk_speed : R;
  walk_direction : R;
  turn_direction : R;
  is_moving : bool;
  movement_queue : list keyframe;
  current_movement : option keyframe;
  movement_start_time : Z;
  movement_duration : Z;
  stand_femur : R;
  stand_knee : R;
  step_lift : R;
  step_plant : R;
  step_fwd : R;
  step_back : R;
}.

Module GaitController.

(** Field assignments [self.f = v]. *)
Definition with_servos (g : GaitController) (b : bank) : GaitController :=
  mkGait b (is_walking g) (walk_phase g) (walk_speed g) (walk_direction g)
    (turn_direction g) (is_moving g) (movement_queue g) (current_movement g)
    (movement_start_time g) (movement_duration g) (stand_femur g)
    (stand_knee g) (step_lift g) (step_plant g) (step_fwd g) (step_back g).

Definition with_walk (g : GaitController) (walking : bool)
    (phase speed direction turn : R) : GaitController :=
  mkGait (servos g) walking phase speed direction turn
    (is_moving g) (movement_queue g) (current_movement g)
    (movement_start_time g) (movement_duration g) (stand_femur g)
    (stand_knee g) (step_lift g) (step_plant g) (step_fwd g) (step_back g).

Definition with_is_walking (g : GaitController) (b : bool) : GaitController :=
  with_walk g b (walk_phase g) (walk_speed g) (walk_direction g)
    (turn_direction g).

Definition with_walk_phase (g : GaitController) (p : R) : GaitController :=
  with_walk g (is_walking g) p (walk_speed g) (walk_direction g)
    (turn_direction g).

Definition with_movement (g : GaitController) (moving : bool)
    (queue : list keyframe) (cur : option keyframe) (start dur : Z)
    : GaitController :=
  mkGait (servos g) (is_walking g) (walk_phase g) (walk_speed g)
    (walk_direction g) (turn_direction g) moving queue cur start dur
    (stand_femur g) (stand_knee g) (step_lift g) (step_plant g) (step_fwd g)
    (step_back g).

Definition with_is_moving (g : GaitController) (b : bool) : GaitController :=
  with_movement g b (movement_queue g) (current_movement g)
    (movement_start_time g) (movement_duration g).

Definition with_movement_queue (g : GaitController) (q : list keyframe)
    : GaitController :=
  with_movement g (is_moving g) q (current_movement g)
    (movement_start_time g) (movement_duration g).

Definition __init__ (servo_controller : bank) : GaitController :=
  {| servos := servo_controller;
     is_walking := false;
     walk_phase := 0.0;
     walk_speed := 1.0;
     walk_direction := 0;
     turn_direction := 0;
     is_moving := false;
     movement_queue := [];
     current_movement := None;
     movement_start_time := 0;
     movement_duration := 0;
     stand_femur := default 90 (Config.GAIT !! "STAND_FEMUR");
     stand_knee := default 180 (Config.GAIT !! "STAND_KNEE");
     step_lift := default 110 (Config.GAIT !! "STEP_LIFT");
     step_plant := default 180 (Config.GAIT !! "STEP_PLANT");
     step_fwd := default 115 (Config.GAIT !! "STEP_FWD");
     step_back := default 65 (Config.GAIT !! "STEP_BACK") |}.

Definition neutral_pose : positions :=
  [("R1", 90); ("R2", 90); ("L1", 90); ("L2", 90);
   ("R3", 90); ("R4", 90); ("L3", 90); ("L4", 90)].

(** The [poses] dict built inside [get_pose]. *)
Definition poses (g : GaitController) : gmap string positions :=
  list_to_map
    [("neutral", neutral_pose);
     ("stand", [("R1", stand_femur g); ("R2", stand_femur g);
                ("L1", stand_femur g); ("L2", stand_femur g);
                ("R3", stand_knee g); ("R4", stand_knee g);
                ("L3", stand_knee g); ("L4", stand_knee g)]);
     ("sit", [("R1", 90); ("R2", 90); ("L1", 90); ("L2", 90);
              ("R3", 45); ("R4", 45); ("L3", 45); ("L4", 45)]);
     ("tall", [("R1", 90); ("R2", 90); ("L1", 90); ("L2", 90);
               ("R3", 180); ("R4", 180); ("L3", 180); ("L4", 180)]);
     ("crouch", [("R1", 90); ("R2", 90); ("L1", 90); ("L2", 90);
                 ("R3", 120); ("R4", 120); ("L3", 120); ("L4", 120)])].

Definition get_pose (g : GaitController) (name : string) : positions :=
  default (poses g !!! "neutral") (poses g !! name).

Definition set_pose (g : GaitController) (name : string) (immediate : bool)
    : GaitController :=
  with_servos g
    (ServoController.set_positions (servos g) (get_pose g name) immediate).

(** [math.sin] and [% 1.0] work on doubles; here they are the real sine and
    the fractional part.  Signs, bounds and order carry over to the code;
    an equality between two separately computed angles holds in the code
    only up to rounding in the last digits. *)
Definition get_walk_positions (g : GaitController) (phase direction turn : R)
    : positions :=
  let phase := mod1 phase in
  let swing := (step_fwd g - step_back g) / 2 in
  let center := (step_fwd g + step_back g) / 2 in
  let femur_a := center + sin (phase * 2 * PI) * swing * direction in
  let femur_b := center + sin ((phase + 0.5) * 2 * PI) * swing * direction in
  let knee_a := step_plant g
                + Rmax 0 (sin (phase * 2 * PI)) * (step_lift g - step_plant g) in
  let knee_b := step_plant g
                + Rmax 0 (sin ((phase + 0.5) * 2 * PI))
                  * (step_lift g - step_plant g) in
  let turn_bias := 15 * turn in
  [("R1", femur_a - turn_bias); ("R3", knee_a);
   ("L2", femur_a + turn_bias); ("L4", knee_a);
   ("L1", femur_b + turn_bias); ("L3", knee_b);
   ("R2", femur_b - turn_bias); ("R4", knee_b)].

Definition start_walk (g : GaitController) (direction turn speed : R)
    : GaitController :=
  with_walk g true (walk_phase g) speed direction turn.

Definition stop_walk (g : GaitController) : GaitController :=
  set_pose (with_is_walking g false) "stand" false.

(** [update_walk] divides by [walk_speed]: [None] is Python's
    [ZeroDivisionError], raised before anything is assigned.  A speed is a
    finite number here.  For an infinite speed, which [float] accepts from
    a command, the code's [0.8 / walk_speed] is [0.0] and the division
    raises as well; that case has no counterpart in this model. *)
Definition update_walk (g : GaitController) (dt : R)
    : option GaitController :=
  if negb (is_walking g) then Some g
  else if Req_dec_T (walk_speed g) 0 then None
  else
    let phase := walk_phase g + dt / (0.8 / walk_speed g) in
    let phase := if Rge_dec phase 1.0 then phase - 1.0 else phase in
    let g := with_walk_phase g phase in
    Some (with_servos g
      (ServoController.set_positions (servos g)
         (get_walk_positions g (walk_phase g) (walk_direction g)
            (turn_direction g))
         true)).

(** Truthiness of [pos] in [if pos:]: neither [None] nor an empty dict. *)
Definition truthy (pos : option positions) : option positions :=
  match pos with
  | Some (e :: p) => Some (e :: p)
  | _ => None
  end.

Definition _next (g : GaitController) (now : Z) : GaitController * bool :=
  match movement_queue g with
  | [] => (with_is_moving g false, false)
  | (pos, dur) :: rest =>
      let g := with_movement g (is_moving g) rest (Some (pos, dur))
                 (movement_start_time g) (movement_duration g) in
      let g := match truthy pos with
               | Some p =>
                   with_servos g
                     (ServoController.set_positions (servos g) p true)
               | None => g
               end in
      (with_movement g (is_moving g) (movement_queue g) (current_movement g)
         now (py_int (dur * 1000)), true)
  end.

Definition _queue (g : GaitController) (seq : list keyframe) (now : Z)
    : GaitController :=
  fst (_next (with_movement g true seq (current_movement g)
                (movement_start_time g) (movement_duration g)) now).

Definition wave_seq (g : GaitController) : list keyframe :=
  [(Some [("R1", 90); ("R3", 45)], 0.3); (Some [("R1", 60)], 0.2);
   (Some [("R1", 120)], 0.2); (Some [("R1", 60)], 0.2);
   (Some [("R1", 120)], 0.2);
   (Some [("R1", 90); ("R3", stand_knee g)], 0.3)].

Definition wave (g : GaitController) (now : Z) : GaitController :=
  _queue g (wave_seq g) now.

Definition bow_seq (g : GaitController) : list keyframe :=
  [(Some [("R3", 120); ("L3", 120); ("R4", 160); ("L4", 160)], 0.5);
   (None, 0.5); (Some (get_pose g "stand"), 0.5)].

Definition bow (g : GaitController) (now : Z) : GaitController :=
  _queue g (bow_seq g) now.

Definition shake_seq (g : GaitController) : list keyframe :=
  concat (replicate 3
    [(Some [("R1", 70); ("R2", 70); ("L1", 110); ("L2", 110)], 0.15);
     (Some [("R1", 110); ("R2", 110); ("L1", 70); ("L2", 70)], 0.15)])
  ++ [(Some (get_pose g "stand"), 0.3)].

Definition shake (g : GaitController) (now : Z) : GaitController :=
  _queue g (shake_seq g) now.

Definition wiggle_seq : list keyframe :=
  concat (replicate 3
    [(Some [("R2", 70); ("L2", 110)], 0.1);
     (Some [("R2", 110); ("L2", 70)], 0.1)])
  ++ [(Some [("R2", 90); ("L2", 90)], 0.2)].

Definition wiggle (g : GaitController) (now : Z) : GaitController :=
  _queue g wiggle_seq now.

Definition update `{Ticks} (g : GaitController) (dt : R) (now : Z)
    : option GaitController :=
  if is_walking g then update_walk g dt
  else if is_moving g then
    if Z_ge_dec (ticks_diff now (movement_start_time g)) (movement_duration g)
    then Some (fst (_next g now))
    else Some g
  else Some g.

Definition stop_all (g : GaitController) : GaitController :=
  with_movement (with_is_walking g false) false []
    (current_movement g) (movement_start_time g) (movement_duration g).

End GaitController.

(** ** The motion API as a transition system

    [robot.py] drives one [GaitController] whose [servos] field is the very
    [ServoController] the robot also addresses directly, so one record holds
    the whole mutable state.  A call that raises leaves no successor. *)

Section Transitions.
Context `{Ticks}.

Import GaitController.

Inductive call : Type :=
  | StartWalk (direction turn speed : R)
  | StopWalk
  | SetPose (name : string) (immediate : bool)
  | Wave | Bow | Shake | Wiggle
  | Queue (seq : list keyframe)
  | StopAll
  | Update (dt : R)
  | UpdateAll (dt : R)
  | SetServo (name : string) (angle : R) (immediate : bool)
  | SetLeg (leg_name : string) (femur_angle knee_angle : R) (immediate : bool)
  | SetAll (angle : R) (immediate : bool)
  | SetPositions (pos : positions) (immediate : bool)
  | CenterAll (immediate : bool)
  | DetachAll
  | AttachAll.

(** [run c now g]: the state after call [c] made when the clock reads
    [now]. *)
Definition run (c : call) (now : Z) (g : GaitController)
    : option GaitController :=
  match c with
  | StartWalk d t s => Some (start_walk g d t s)
  | StopWalk => Some (stop_walk g)
  | SetPose n i => Some (set_pose g n i)
  | Wave => Some (wave g now)
  | Bow => Some (bow g now)
  | Shake => Some (shake g now)
  | Wiggle => Some (wiggle g now)
  | Queue seq => Some (_queue g seq now)
  | StopAll => Some (stop_all g)
  | Update dt => update g dt now
  | UpdateAll dt =>
      Some (with_servos g (fst (ServoController.update_all (servos g) dt)))
  | SetServo n a i =>
      Some (with_servos g (ServoController.set_servo (servos g) n a i))
  | SetLeg l f k i =>
      Some (with_servos g (ServoController.set_leg (servos g) l f k i))
  | SetAll a i =>
      Some (with_servos g (ServoController.set_all (servos g) a i))
  | SetPositions p i =>
      Some (with_servos g (ServoController.set_positions (servos g) p i))
  | CenterAll i =>
      Some (with_servos g (ServoController.center_all (servos g) i))
  | DetachAll => Some (with_servos g (ServoController.detach_all (servos g)))
  | AttachAll => Some (with_servos g (ServoController.attach_all (servos g)))
  end.

(** The state [Robot.__init__] builds. *)
Definition initial : GaitController :=
  GaitController.__init__ ServoController.__init__.

Inductive reachable : GaitController -> Prop :=
  | reachable_initial : reachable initial
  | reachable_run g c now g' :
      reachable g -> run c now g = Some g' -> reachable g'.

(** The branch [update] takes. *)
Inductive MotionMode := Idle | Walking | Sequenced.

Definition mode (g : GaitController) : MotionMode :=
  if is_walking g then Walking
  else if is_moving g then Sequenced
  else Idle.

End Transitions.

(** ** Invariants of a joint and of the bank *)

Definition servo_ok (s : Servo) : Prop :=
  min_angle s <= current_angle s <= max_angle s
  /\ min_angle s <= target_angle s <= max_angle s.

Definition bank_ok (b : bank) : Prop :=
  map_Forall (fun _ s => servo_ok s) b.

(** The shape [ServoController.__init__] gives the bank: exactly the eight
    configured names, each with the shipped limits. *)
Definition configured (b : bank) : Prop :=
  (forall n, n ∉ Config.ALL_SERVOS -> b !! n = None)
  /\ (forall n, n ∈ Config.ALL_SERVOS -> is_Some (b !! n))
  /\ map_Forall (fun n s =>
       name s = n /\ min_angle s = 0 /\ max_angle s = 180
       /\ inverted s = default false (Config.SERVO_INVERTED !! n)) b.

(** Repeated [update] calls on one servo with the same arguments. *)
Definition steps (dt : R) (speed : option R) (n : nat) (s : Servo) : Servo :=
  Nat.iter n (fun s => fst (Servo.update s dt speed)) s.

(** The distance [update] compares with half a degree. *)
Definition distance (s : Servo) : R :=
  Rabs (current_angle s - target_angle s).

(** The rate [update] works with. *)
Definition rate (s : Servo) (speed : option R) : R :=
  default (Servo.default_speed s) speed.

(** The conversion as the specification words it: the reflection uses the
    joint's own limits.  [reflect_by_limits] is the reflection;
    [toPhysicalValue_spec] follows it by the map of 0..180 degrees onto the
    pulse range that the source uses, [toPhysicalValue_spec_range] by the
    map of [min_angle..max_angle] onto the pulse range. *)
Definition reflect_by_limits (s : Servo) (angle : R) : R :=
  if inverted s then max_angle s - (angle - min_angle s) else angle.

Definition duty_of_pulse (pulse_us : R) : Z :=
  py_int ((pulse_us / (1000000 / Servo.PWM_FREQ)) * 65535).

Definition toPhysicalValue_spec (s : Servo) (angle : R) : Z :=
  duty_of_pulse
    (Servo.MIN_US
     + (reflect_by_limits s angle / 180) * (Servo.MAX_US - Servo.MIN_US)).

Definition toPhysicalValue_spec_range (s : Servo) (angle : R) : Z :=
  duty_of_pulse
    (Servo.MIN_US
     + ((reflect_by_limits s angle - min_angle s)
        / (max_angle s - min_angle s))
       * (Servo.MAX_US - Servo.MIN_US)).

(** Indexing a positions dict literal: of two entries with one key the
    later one counts. *)
Fixpoint angle_of (pos : positions) (n : string) : option R :=
  match pos with
  | [] => None
  | (k, a) :: rest =>
      match angle_of rest n with
      | Some b => Some b
      | None => if String.eqb k n then Some a else None
      end
  end.

(** The names [get_pose] knows. *)
Definition pose_names : list string :=
  ["neutral"; "stand"; "sit"; "tall"; "crouch"].

(** What the methods of [Servo] can make of one servo object. *)
Inductive evolves : Servo -> Servo -> Prop :=
  | evolves_refl s : evolves s s
  | evolves_trans s1 s2 s3 : evolves s1 s2 -> evolves s2 s3 -> evolves s1 s3
  | evolves_set_angle s a i : evolves s (Servo.set_angle s a i)
  | evolves_update s dt sp : evolves s (fst (Servo.update s dt sp))
  | evolves_detach s : evolves s (Servo.detach s)
  | evolves_attach s : evolves s (Servo.attach s).

(** The same, name by name, for the bank: no name appears or disappears. *)
Definition bank_evolves (b b' : bank) : Prop :=
  forall n, option_Forall2 evolves (b !! n) (b' !! n).

(** A sequence that is not marked as moving has nothing left to play. *)
Definition queue_inv (g : GaitController) : Prop :=
  is_moving g = false -> movement_queue g = [].

(** Two states used as examples: a wave started at clock 0, and the same
    with a forward walk started on top of it. *)
Definition waving : GaitController := GaitController.wave initial 0.

Definition waving_then_walking : GaitController :=
  GaitController.start_walk waving 1 0 1.

(** A request far out of range on the freshly built robot. *)
Definition with_servos_R1_500 : GaitController :=
  GaitController.with_servos initial
    (ServoController.set_servo (servos initial) "R1" 500 true).

(** ** robot.py: class Robot

    The eye display ([display.py]) is a collaborator that [Robot] only
    calls; its three methods used here are an interface.  [Robot.servos] is
    the same object as [gait.servos], so the bank is the one inside [gait]. *)

Class EyeAnimation (E : Type) := {
  eyes_init : Z -> E;
  set_animation : string -> Z -> Z -> E -> E;
  look_at : R -> R -> E -> E;
  eyes_update : Z -> E -> E;
}.

Record Robot (E : Type) := mkRobot {
  gait : GaitController;
  eyes : E;
  last_update : Z;
  running : bool;
}.

Arguments mkRobot {E} _ _ _ _.
Arguments gait {E} _.
Arguments eyes {E} _.
Arguments last_update {E} _.
Arguments running {E} _.

Module Robot.
Section Methods.
Context `{Ticks} `{EyeAnimation E}.

Definition with_gait (r : Robot E) (g : GaitController) : Robot E :=
  mkRobot g (eyes r) (last_update r) (running r).

Definition with_eyes (r : Robot E) (e : E) : Robot E :=
  mkRobot (gait r) e (last_update r) (running r).

Definition __init__ (now : Z) : Robot E :=
  mkRobot (GaitController.__init__ ServoController.__init__) (eyes_init now)
    now false.

Definition start (r : Robot E) (now : Z) : Robot E :=
  mkRobot (GaitController.set_pose (gait r) "stand" true)
    (set_animation "idle" 0 now (eyes r)) (last_update r) true.

Definition stop (r : Robot E) : Robot E :=
  let g := GaitController.stop_all (gait r) in
  mkRobot (GaitController.with_servos g
             (ServoController.detach_all (servos g)))
    (eyes r) (last_update r) false.

(** [update]: [None] when [gait.update] raises. *)
Definition update (r : Robot E) (now : Z) : option (Robot E) :=
  let dt := IZR (ticks_diff now (last_update r)) / 1000.0 in
  match GaitController.update (gait r) dt now with
  | None => None
  | Some g =>
      Some (mkRobot
              (GaitController.with_servos g
                 (fst (ServoController.update_all (servos g) dt)))
              (eyes_update now (eyes r)) now (running r))
  end.

Definition forward (r : Robot E) (speed : R) (now : Z) : Robot E :=
  mkRobot (GaitController.start_walk (gait r) 1 0 speed)
    (set_animation "idle" 0 now (eyes r)) (last_update r) (running r).

Definition backward (r : Robot E) (speed : R) : Robot E :=
  mkRobot (GaitController.start_walk (gait r) (-1) 0 speed)
    (look_at 0 0.5 (eyes r)) (last_update r) (running r).

Definition left (r : Robot E) (speed : R) : Robot E :=
  mkRobot (GaitController.start_walk (gait r) 1 (-1) speed)
    (look_at (-0.5) 0 (eyes r)) (last_update r) (running r).

Definition right (r : Robot E) (speed : R) : Robot E :=
  mkRobot (GaitController.start_walk (gait r) 1 1 speed)
    (look_at 0.5 0 (eyes r)) (last_update r) (running r).

Definition halt (r : Robot E) (now : Z) : Robot E :=
  mkRobot (GaitController.stop_walk (gait r))
    (set_animation "idle" 0 now (eyes r)) (last_update r) (running r).

Definition stand (r : Robot E) : Robot E :=
  with_gait r (GaitController.set_pose (gait r) "stand" true).

Definition sit (r : Robot E) (now : Z) : Robot E :=
  mkRobot (GaitController.set_pose (gait r) "sit" true)
    (set_animation "happy" 1000 now (eyes r)) (last_update r) (running r).

Definition crouch (r : Robot E) : Robot E :=
  with_gait r (GaitController.set_pose (gait r) "crouch" true).

Definition wave (r : Robot E) (now : Z) : Robot E :=
  mkRobot (GaitController.wave (gait r) now)
    (set_animation "happy" 2000 now (eyes r)) (last_update r) (running r).

Definition bow (r : Robot E) (now : Z) : Robot E :=
  mkRobot (GaitController.bow (gait r) now)
    (set_animation "happy" 1500 now (eyes r)) (last_update r) (running r).

Definition shake (r : Robot E) (now : Z) : Robot E :=
  mkRobot (GaitController.shake (gait r) now)
    (set_animation "dizzy" 1500 now (eyes r)) (last_update r) (running r).

Definition wiggle (r : Robot E) (now : Z) : Robot E :=
  mkRobot (GaitController.wiggle (gait r) now)
    (set_animation "happy" 1000 now (eyes r)) (last_update r) (running r).

Definition happy (r : Robot E) (now : Z) : Robot E :=
  with_eyes r (set_animation "happy" 2000 now (eyes r)).

Definition sad (r : Robot E) (now : Z) : Robot E :=
  with_eyes r (set_animation "sad" 2000 now (eyes r)).

Definition angry (r : Robot E) (now : Z) : Robot E :=
  with_eyes r (set_animation "angry" 2000 now (eyes r)).

Definition sleep (r : Robot E) (now : Z) : Robot E :=
  with_eyes r (set_animation "sleep" 0 now (eyes r)).

Definition wake (r : Robot E) (now : Z) : Robot E :=
  with_eyes r (set_animation "surprised" 500 now (eyes r)).

Definition set_servo (r : Robot E) (name : string) (angle : R) : Robot E :=
  with_gait r
    (GaitController.with_servos (gait r)
       (ServoController.set_servo (servos (gait r)) name angle true)).

Definition center_all (r : Robot E) : Robot E :=
  with_gait r
    (GaitController.with_servos (gait r)
       (ServoController.center_all (servos (gait r)) true)).

(** The methods of [Robot], as commands. *)
Inductive command : Type :=
  | Start | Stop | RUpdate
  | Forward (speed : R) | Backward (speed : R)
  | Left (speed : R) | Right (speed : R) | Halt
  | Stand | Sit | Crouch
  | RWave | RBow | RShake | RWiggle
  | Happy | Sad | Angry | Sleep | Wake
  | RSetServo (name : string) (angle : R)
  | RCenterAll.

Definition exec (c : command) (now : Z) (r : Robot E) : option (Robot E) :=
  match c with
  | Start => Some (start r now)
  | Stop => Some (stop r)
  | RUpdate => update r now
  | Forward sp => Some (forward r sp now)
  | Backward sp => Some (backward r sp)
  | Left sp => Some (left r sp)
  | Right sp => Some (right r sp)
  | Halt => Some (halt r now)
  | Stand => Some (stand r)
  | Sit => Some (sit r now)
  | Crouch => Some (crouch r)
  | RWave => Some (wave r now)
  | RBow => Some (bow r now)
  | RShake => Some (shake r now)
  | RWiggle => Some (wiggle r now)
  | Happy => Some (happy r now)
  | Sad => Some (sad r now)
  | Angry => Some (angry r now)
  | Sleep => Some (sleep r now)
  | Wake => Some (wake r now)
  | RSetServo n a => Some (set_servo r n a)
  | RCenterAll => Some (center_all r)
  end.

(** The states a robot built at clock [t0] can get into. *)
Inductive robot_reachable (t0 : Z) : Robot E -> Prop :=
  | robot_reachable_init : robot_reachable t0 (__init__ t0)
  | robot_reachable_exec r c now r' :
      robot_reachable t0 r -> exec c now r = Some r' ->
      robot_reachable t0 r'.

End Methods.
End Robot.

(** An eye display that shows nothing, for concrete examples. *)
Definition no_eyes : EyeAnimation unit :=
  {| eyes_init := fun _ => tt;
     set_animation := fun _ _ _ e => e;
     look_at := fun _ _ e => e;
     eyes_update := fun _ e => e |}.

(** ** Further notions used in the properties *)

(** Repeated [update_all] calls with the same time step. *)
Definition bank_steps (dt : R) (n : nat) (b : bank) : bank :=
  Nat.iter n (fun b => fst (ServoController.update_all b dt)) b.

(** [_next] called [k] times in a row. *)
Definition play (now : Z) (k : nat) (g : GaitController) : GaitController :=
  Nat.iter k (fun g => fst (GaitController._next g now)) g.

(** The gait parameters [GaitController.__init__] reads from [GAIT]. *)
Definition shipped_gait (g : GaitController) : Prop :=
  stand_femur g = 90 /\ stand_knee g = 180 /\ step_lift g = 110
  /\ step_plant g = 180 /\ step_fwd g = 115 /\ step_back g = 65.

(** The duty of a detached servo, or one of a pulse of 500 to 2500
    microseconds. *)
Definition duty_ok (s : Servo) : Prop :=
  pwm_duty s = 0%Z \/ (1638 <= pwm_duty s <= 8191)%Z.

(** More example states: a forward walk on the fresh robot, and the robot
    as [Robot.__init__] builds it at clock 0 with a display that shows
    nothing. *)
Definition walking_forward : GaitController :=
  GaitController.start_walk initial 1 0 1.

Definition fresh_robot : Robot unit :=
  @Robot.__init__ unit no_eyes 0.

(** * Properties *)

(** ** Numbers *)

Lemma py_int_IZR (z : Z) : py_int (IZR z) = z.
Proof.
  unfold py_int. destruct (Rle_dec 0 (IZR z)) as [_|Hn].
  - symmetry. apply Int_part_spec. lra.
  - rewrite <- opp_IZR. f_equal.
    rewrite <- (Z.opp_involutive z) at 2. f_equal.
    symmetry. apply Int_part_spec. rewrite opp_IZR. lra.
Qed.

Lemma py_int_between (x : R) (z : Z) :
  0 <= IZR z -> IZR z <= x < IZR z + 1 -> py_int x = z.
Proof.
  intros Hz Hx. unfold py_int. destruct (Rle_dec 0 x) as [_|Hn]; [|lra].
  symmetry. apply Int_part_spec. lra.
Qed.

Lemma mod1_range (x : R) : 0 <= mod1 x < 1.
Proof.
  unfold mod1. destruct (base_fp x) as [H1 H2]. lra.
Qed.

(** ** A single servo *)

Section ServoFacts.
Import Servo.

Lemma clamp_range (s : Servo) (a : R) :
  min_angle s <= max_angle s -> min_angle s <= clamp s a <= max_angle s.
Proof.
  intros Hm. unfold clamp, Rmax, Rmin.
  repeat destruct Rle_dec; lra.
Qed.

Lemma clamp_id (s : Servo) (a : R) :
  min_angle s <= a <= max_angle s -> clamp s a = a.
Proof.
  intros Ha. unfold clamp, Rmax, Rmin.
  repeat destruct Rle_dec; lra.
Qed.

Lemma clamp_idem (s : Servo) (a : R) : clamp s (clamp s a) = clamp s a.
Proof.
  unfold clamp, Rmax, Rmin. repeat destruct Rle_dec; lra.
Qed.

Lemma servo_ok_limits (s : Servo) : servo_ok s -> min_angle s <= max_angle s.
Proof. intros [[H1 H2] _]. lra. Qed.

Lemma set_angle_target (s : Servo) (a : R) (i : bool) :
  target_angle (set_angle s a i) = clamp s a.
Proof. destruct i; reflexivity. Qed.

Lemma set_angle_current (s : Servo) (a : R) (i : bool) :
  current_angle (set_angle s a i)
  = if i then clamp s a else current_angle s.
Proof.
  destruct i; simpl; [|reflexivity].
  pose proof (clamp_idem s a) as Hi. unfold clamp in *; simpl. exact Hi.
Qed.

Lemma set_angle_static (s : Servo) (a : R) (i : bool) :
  name (set_angle s a i) = name s
  /\ min_angle (set_angle s a i) = min_angle s
  /\ max_angle (set_angle s a i) = max_angle s
  /\ inverted (set_angle s a i) = inverted s.
Proof. destruct i; repeat split. Qed.

Lemma write_angle_ok (s : Servo) (a : R) :
  min_angle s <= max_angle s ->
  min_angle s <= target_angle s <= max_angle s ->
  servo_ok (_write_angle s a).
Proof.
  intros Hm Ht. split; simpl; [apply clamp_range; exact Hm|exact Ht].
Qed.

Lemma init_ok (n : string) (p : Z) (inv : bool) (lo hi c : R) :
  lo <= c <= hi -> servo_ok (__init__ n p inv (lo, hi) c).
Proof.
  intros Hc. apply write_angle_ok; simpl; lra.
Qed.

Lemma set_angle_ok (s : Servo) (a : R) (i : bool) :
  servo_ok s -> servo_ok (set_angle s a i).
Proof.
  intros Hs. pose proof (servo_ok_limits s Hs) as Hm.
  destruct Hs as [Hc Ht].
  split.
  - rewrite set_angle_current.
    destruct (set_angle_static s a i) as (_ & -> & -> & _).
    destruct i; [apply clamp_range; exact Hm|exact Hc].
  - rewrite set_angle_target.
    destruct (set_angle_static s a i) as (_ & -> & -> & _).
    apply clamp_range; exact Hm.
Qed.

Lemma update_static (s : Servo) (dt : R) (sp : option R) :
  name (fst (update s dt sp)) = name s
  /\ min_angle (fst (update s dt sp)) = min_angle s
  /\ max_angle (fst (update s dt sp)) = max_angle s
  /\ inverted (fst (update s dt sp)) = inverted s
  /\ target_angle (fst (update s dt sp)) = target_angle s.
Proof. unfold update. destruct Rlt_dec; repeat split. Qed.

Lemma update_ok (s : Servo) (dt : R) (sp : option R) :
  servo_ok s -> servo_ok (fst (update s dt sp)).
Proof.
  intros Hs. unfold update. destruct Rlt_dec; simpl; [exact Hs|].
  apply write_angle_ok; [apply servo_ok_limits; exact Hs|apply Hs].
Qed.

Lemma detach_ok (s : Servo) : servo_ok s -> servo_ok (detach s).
Proof. intros Hs. exact Hs. Qed.

Lemma attach_ok (s : Servo) : servo_ok s -> servo_ok (attach s).
Proof.
  intros Hs. apply write_angle_ok; [apply servo_ok_limits; exact Hs|apply Hs].
Qed.

End ServoFacts.

(** ** Smooth movement of one servo *)

Section Smoothing.
Import Servo.

Lemma default_speed_pos (s : Servo) : 0 < default_speed s.
Proof.
  unfold default_speed, Config.SPEED_MULTIPLIER.
  assert (Hv : 0 < default 0.15 (Config.SERVO_SPEED !! name s)).
  { destruct (Config.SERVO_SPEED !! name s) as [v|] eqn:Hl; simpl; [|lra].
    unfold Config.SERVO_SPEED in Hl. simpl in Hl.
    repeat (apply lookup_insert_Some in Hl as [[_ <-]|[_ Hl]]; [lra|]).
    rewrite lookup_empty in Hl. discriminate. }
  nra.
Qed.

Lemma update_settled (s : Servo) (dt : R) (sp : option R) :
  distance s < 0.5 -> update s dt sp = (s, false).
Proof.
  intros Hd. unfold update. fold (distance s).
  destruct Rlt_dec; [reflexivity|contradiction].
Qed.

Lemma update_moving (s : Servo) (dt : R) (sp : option R) :
  servo_ok s -> 0 <= rate s sp * dt -> 0.5 <= distance s ->
  snd (update s dt sp) = true
  /\ current_angle (fst (update s dt sp))
     = current_angle s
       + Rmax (- (rate s sp * dt))
              (Rmin (rate s sp * dt) (target_angle s - current_angle s)).
Proof.
  intros Hs Hm Hd. unfold update. fold (distance s) (rate s sp).
  destruct Rlt_dec as [Hlt|_]; [lra|]. split; [reflexivity|]. simpl.
  apply clamp_id. destruct Hs as [Hc Ht].
  unfold Rmax, Rmin. repeat destruct Rle_dec; lra.
Qed.

Lemma steps_S (dt : R) (sp : option R) (n : nat) (s : Servo) :
  steps dt sp (S n) s = fst (update (steps dt sp n s) dt sp).
Proof. reflexivity. Qed.

Lemma steps_static (dt : R) (sp : option R) (n : nat) (s : Servo) :
  name (steps dt sp n s) = name s
  /\ target_angle (steps dt sp n s) = target_angle s.
Proof.
  induction n as [|n [IHn IHt]]; [split; reflexivity|].
  rewrite steps_S.
  destruct (update_static (steps dt sp n s) dt sp) as (-> & _ & _ & _ & ->).
  split; assumption.
Qed.

Lemma steps_ok (dt : R) (sp : option R) (n : nat) (s : Servo) :
  servo_ok s -> servo_ok (steps dt sp n s).
Proof.
  intros Hs. induction n; [exact Hs|]. rewrite steps_S. now apply update_ok.
Qed.

Lemma steps_rate (dt : R) (sp : option R) (n : nat) (s : Servo) :
  rate (steps dt sp n s) sp = rate s sp.
Proof.
  unfold rate, default_speed.
  destruct (steps_static dt sp n s) as [-> _]. reflexivity.
Qed.

Lemma distance_step (s : Servo) (dt : R) (sp : option R) :
  servo_ok s -> 0 < rate s sp * dt -> 0.5 <= distance s ->
  distance (fst (update s dt sp)) < 0.5
  \/ distance (fst (update s dt sp)) = distance s - rate s sp * dt.
Proof.
  intros Hs Hm Hd.
  destruct (update_moving s dt sp Hs) as [_ Hc]; [lra|exact Hd|].
  destruct (update_static s dt sp) as (_ & _ & _ & _ & Ht).
  unfold distance in *. rewrite Hc, Ht. clear Hc Ht.
  revert Hd. unfold Rabs, Rmax, Rmin.
  repeat destruct Rle_dec; repeat destruct Rcase_abs; lra.
Qed.

Lemma steps_distance (dt : R) (sp : option R) (n : nat) (s : Servo) :
  servo_ok s -> 0 < rate s sp * dt ->
  distance (steps dt sp n s) < 0.5
  \/ distance (steps dt sp n s) <= distance s - INR n * (rate s sp * dt).
Proof.
  intros Hs Hm. induction n as [|n IHn].
  - right. simpl. lra.
  - rewrite steps_S, S_INR.
    destruct (Rlt_dec (distance (steps dt sp n s)) 0.5) as [Hlt|Hge].
    + left. rewrite update_settled by exact Hlt. exact Hlt.
    + destruct IHn as [Hlt|Hle]; [contradiction|].
      destruct (distance_step (steps dt sp n s) dt sp) as [Hd|Hd].
      * now apply steps_ok.
      * rewrite steps_rate. exact Hm.
      * lra.
      * left. exact Hd.
      * right. rewrite Hd, steps_rate. lra.
Qed.

Lemma steps_settle (dt : R) (sp : option R) (s : Servo) :
  servo_ok s -> 0 < rate s sp * dt ->
  exists n, distance (steps dt sp n s) < 0.5.
Proof.
  intros Hs Hm.
  remember (rate s sp * dt) as m eqn:Em.
  set (q := distance s / m).
  assert (Hq : 0 <= q).
  { unfold q. apply Rmult_le_pos; [apply Rabs_pos|].
    left. now apply Rinv_0_lt_compat. }
  destruct (archimed q) as [Hup _].
  assert (Hz : (0 <= up q)%Z).
  { apply le_IZR. lra. }
  exists (Z.to_nat (up q)).
  destruct (steps_distance dt sp (Z.to_nat (up q)) s Hs) as [Hlt|Hle];
    [rewrite <- Em; exact Hm|exact Hlt|].
  rewrite <- Em in Hle.
  rewrite INR_IZR_INZ, Z2Nat.id in Hle by exact Hz.
  assert (Hd : distance s < IZR (up q) * m).
  { assert (Hq' : distance s = q * m) by (unfold q; field; lra).
    rewrite Hq' at 1. apply Rmult_lt_compat_r; lra. }
  pose proof (Rabs_pos
    (current_angle (steps dt sp (Z.to_nat (up q)) s)
     - target_angle (steps dt sp (Z.to_nat (up q)) s))) as Hp.
  unfold distance in *. lra.
Qed.

Lemma steps_stay (dt : R) (sp : option R) (n m : nat) (s : Servo) :
  distance (steps dt sp n s) < 0.5 -> (n <= m)%nat ->
  steps dt sp m s = steps dt sp n s.
Proof.
  intros Hd Hnm. induction Hnm as [|m Hnm IH]; [reflexivity|].
  rewrite steps_S, IH, update_settled by exact Hd. reflexivity.
Qed.

End Smoothing.

(** C5.  One [update] call of a servo whose angles are within its limits,
    for a positive time step and a positive rate: within half a degree of
    the target it reports not moving and changes nothing; otherwise it
    reports moving, keeps the target, moves the current angle by at most
    rate times dt, to a value between the old current angle and the target,
    and strictly closer to the target.  Over repeated calls the distance
    never grows, it falls below half a degree after finitely many calls, and
    from then on the servo no longer changes and reports not moving. *)
Theorem servo_update_converges (s : Servo) (dt : R) (speed : option R) :
  servo_ok s -> 0 < dt -> 0 < rate s speed ->
  (distance s < 0.5 -> Servo.update s dt speed = (s, false))
  /\ (0.5 <= distance s ->
      let s' := fst (Servo.update s dt speed) in
      snd (Servo.update s dt speed) = true
      /\ target_angle s' = target_angle s
      /\ Rabs (current_angle s' - current_angle s) <= rate s speed * dt
      /\ Rmin (current_angle s) (target_angle s) <= current_angle s'
         <= Rmax (current_angle s) (target_angle s)
      /\ distance s' < distance s)
  /\ (forall n, distance (steps dt speed (S n) s)
                <= distance (steps dt speed n s))
  /\ (exists n, distance (steps dt speed n s) < 0.5
      /\ forall m, (n <= m)%nat ->
           steps dt speed m s = steps dt speed n s
           /\ Servo.update (steps dt speed m s) dt speed
              = (steps dt speed m s, false)).
Proof.
  intros Hs Hdt Hr.
  assert (Hm : 0 < rate s speed * dt) by (apply Rmult_lt_0_compat; lra).
  assert (Hstep : forall t, servo_ok t -> rate t speed = rate s speed ->
            0.5 <= distance t ->
            snd (Servo.update t dt speed) = true
            /\ target_angle (fst (Servo.update t dt speed)) = target_angle t
            /\ Rabs (current_angle (fst (Servo.update t dt speed))
                     - current_angle t) <= rate s speed * dt
            /\ Rmin (current_angle t) (target_angle t)
               <= current_angle (fst (Servo.update t dt speed))
               <= Rmax (current_angle t) (target_angle t)
            /\ distance (fst (Servo.update t dt speed)) < distance t).
  { intros t Ht Hrt Hd.
    destruct (update_moving t dt speed Ht) as [Hmv Hc];
      [rewrite Hrt; lra|exact Hd|].
    destruct (update_static t dt speed) as (_ & _ & _ & _ & Htg).
    split; [exact Hmv|]. split; [exact Htg|].
    unfold distance in *. rewrite Hc, Htg, Hrt. clear Hc Htg Hmv.
    revert Hd. unfold Rabs, Rmax, Rmin.
    repeat destruct Rle_dec; repeat destruct Rcase_abs; intros; lra. }
  split; [apply update_settled|].
  split; [intros Hd; apply Hstep; [exact Hs|reflexivity|exact Hd]|].
  split.
  - intros n. rewrite steps_S.
    destruct (Rlt_dec (distance (steps dt speed n s)) 0.5) as [Hlt|Hge].
    + rewrite update_settled by exact Hlt. simpl. lra.
    + left. apply Hstep; [now apply steps_ok|apply steps_rate|lra].
  - destruct (steps_settle dt speed s Hs Hm) as [n Hn].
    exists n. split; [exact Hn|]. intros m Hnm.
    rewrite (steps_stay dt speed n m s Hn Hnm).
    split; [reflexivity|now apply update_settled].
Qed.

(** ** The bank: every method works servo by servo *)

Section BankFacts.
Import ServoController.

Lemma evolves_static (s s' : Servo) :
  evolves s s' ->
  name s' = name s /\ min_angle s' = min_angle s
  /\ max_angle s' = max_angle s /\ inverted s' = inverted s.
Proof.
  induction 1 as [s|s1 s2 s3 _ IH1 _ IH2|s a i|s dt sp|s|s].
  - repeat split.
  - destruct IH1 as (? & ? & ? & ?), IH2 as (? & ? & ? & ?).
    repeat split; congruence.
  - apply set_angle_static.
  - destruct (update_static s dt sp) as (? & ? & ? & ? & _). repeat split; auto.
  - repeat split.
  - repeat split.
Qed.

Lemma evolves_ok (s s' : Servo) : evolves s s' -> servo_ok s -> servo_ok s'.
Proof.
  induction 1; intros Hs; auto using set_angle_ok, update_ok, detach_ok,
    attach_ok.
Qed.

Lemma bank_evolves_refl (b : bank) : bank_evolves b b.
Proof.
  intros n. destruct (b !! n); constructor. apply evolves_refl.
Qed.

Lemma bank_evolves_trans (b1 b2 b3 : bank) :
  bank_evolves b1 b2 -> bank_evolves b2 b3 -> bank_evolves b1 b3.
Proof.
  intros H12 H23 n. specialize (H12 n). specialize (H23 n).
  destruct H12 as [s1 s2 H12|]; inversion H23; subst; constructor.
  eapply evolves_trans; eassumption.
Qed.

Lemma bank_evolves_fmap (f : Servo -> Servo) (b : bank) :
  (forall s, evolves s (f s)) -> bank_evolves b (f <$> b).
Proof.
  intros Hf n. rewrite lookup_fmap. destruct (b !! n); constructor. apply Hf.
Qed.

Lemma set_servo_lookup (b : bank) (n m : string) (a : R) (i : bool) :
  set_servo b n a i !! m
  = if decide (n = m) then (fun s => Servo.set_angle s a i) <$> b !! m
    else b !! m.
Proof.
  unfold set_servo. destruct (decide (n = m)) as [->|Hne].
  - destruct (b !! m) as [s|] eqn:Hl; simpl.
    + apply lookup_insert_eq.
    + exact Hl.
  - destruct (b !! n); [apply lookup_insert_ne; exact Hne|reflexivity].
Qed.

Lemma set_servo_evolves (b : bank) (n : string) (a : R) (i : bool) :
  bank_evolves b (set_servo b n a i).
Proof.
  intros m. rewrite set_servo_lookup.
  destruct (decide (n = m)); destruct (b !! m); constructor;
    auto using evolves_refl, evolves_set_angle.
Qed.

Lemma set_positions_cons (b : bank) (n : string) (a : R) (pos : positions)
    (i : bool) :
  set_positions b ((n, a) :: pos) i = set_positions (set_servo b n a i) pos i.
Proof. reflexivity. Qed.

Lemma set_positions_evolves (b : bank) (pos : positions) (i : bool) :
  bank_evolves b (set_positions b pos i).
Proof.
  revert b. induction pos as [|[n a] pos IH]; intros b.
  - apply bank_evolves_refl.
  - rewrite set_positions_cons.
    eapply bank_evolves_trans; [apply set_servo_evolves|apply IH].
Qed.

Lemma set_positions_lookup_notin (b : bank) (pos : positions) (i : bool)
    (m : string) :
  m ∉ pos.*1 -> set_positions b pos i !! m = b !! m.
Proof.
  revert b. induction pos as [|[n a] pos IH]; intros b Hm; [reflexivity|].
  rewrite set_positions_cons. simpl in Hm.
  apply not_elem_of_cons in Hm as [Hne Hm].
  rewrite IH by exact Hm. rewrite set_servo_lookup.
  destruct (decide (n = m)); [congruence|reflexivity].
Qed.

Lemma set_positions_lookup_in (b : bank) (pos : positions) (i : bool)
    (m : string) (a : R) :
  NoDup pos.*1 -> (m, a) ∈ pos ->
  set_positions b pos i !! m = (fun s => Servo.set_angle s a i) <$> b !! m.
Proof.
  revert b. induction pos as [|[n a'] pos IH]; intros b Hnd Hin.
  - inversion Hin.
  - rewrite set_positions_cons. simpl in Hnd.
    apply NoDup_cons in Hnd as [Hn Hnd].
    apply elem_of_cons in Hin as [Heq|Hin].
    + injection Heq as -> ->.
      rewrite set_positions_lookup_notin by exact Hn.
      rewrite set_servo_lookup. destruct (decide (n = n)); congruence.
    + rewrite IH by assumption. rewrite set_servo_lookup.
      destruct (decide (n = m)) as [->|_]; [|reflexivity].
      exfalso. apply Hn. apply list_elem_of_fmap. exists (m, a). auto.
Qed.

Lemma set_leg_evolves (b : bank) (l : string) (f k : R) (i : bool) :
  bank_evolves b (set_leg b l f k i).
Proof.
  unfold set_leg. destruct (LEGS !! l) as [[fn kn]|].
  - eapply bank_evolves_trans; apply set_servo_evolves.
  - apply bank_evolves_refl.
Qed.

Lemma set_all_evolves (b : bank) (a : R) (i : bool) :
  bank_evolves b (set_all b a i).
Proof. apply bank_evolves_fmap. intros s. apply evolves_set_angle. Qed.

Lemma center_all_evolves (b : bank) (i : bool) :
  bank_evolves b (center_all b i).
Proof.
  intros n. unfold center_all. rewrite map_lookup_imap.
  destruct (b !! n); simpl; constructor. apply evolves_set_angle.
Qed.

Lemma update_all_evolves (b : bank) (dt : R) :
  bank_evolves b (fst (update_all b dt)).
Proof. apply bank_evolves_fmap. intros s. apply evolves_update. Qed.

Lemma detach_all_evolves (b : bank) : bank_evolves b (detach_all b).
Proof. apply bank_evolves_fmap. apply evolves_detach. Qed.

Lemma attach_all_evolves (b : bank) : bank_evolves b (attach_all b).
Proof. apply bank_evolves_fmap. apply evolves_attach. Qed.

Lemma bank_evolves_ok (b b' : bank) :
  bank_evolves b b' -> bank_ok b -> bank_ok b'.
Proof.
  intros He Hb n s' Hl. specialize (He n). rewrite Hl in He.
  inversion He as [s ? Hev Hs|]; subst.
  eapply evolves_ok; [exact Hev|]. apply (Hb n). congruence.
Qed.

Lemma bank_evolves_configured (b b' : bank) :
  bank_evolves b b' -> configured b -> configured b'.
Proof.
  intros He (Hout & Hin & Hst). split; [|split].
  - intros n Hn. specialize (He n). rewrite (Hout n Hn) in He.
    inversion He. reflexivity.
  - intros n Hn. specialize (He n). destruct (Hin n Hn) as [s Hs].
    rewrite Hs in He. inversion He. eauto.
  - intros n s' Hl. specialize (He n). rewrite Hl in He.
    inversion He as [s ? Hev Hs|]; subst.
    destruct (evolves_static s s' Hev) as (-> & -> & -> & ->).
    apply (Hst n). congruence.
Qed.

End BankFacts.

(** ** The bank that [ServoController.__init__] builds *)

Section InitialBank.
Import ServoController.

Lemma foldl_insert_lookup {A} (f : string -> A) (l : list string)
    (m : gmap string A) (n : string) :
  foldl (fun m k => <[k := f k]> m) m l !! n
  = if decide (n ∈ l) then Some (f n) else m !! n.
Proof.
  revert m. induction l as [|k l IH]; intros m; simpl.
  - destruct (decide (n ∈ [])) as [Hin|_]; [inversion Hin|reflexivity].
  - rewrite IH. destruct (decide (n ∈ l)) as [Hl|Hl].
    + rewrite decide_True by (right; exact Hl). reflexivity.
    + destruct (decide (n = k)) as [->|Hne].
      * rewrite decide_True by left. apply lookup_insert_eq.
      * rewrite decide_False by (rewrite elem_of_cons; tauto).
        apply lookup_insert_ne. congruence.
Qed.

Lemma init_lookup (n : string) :
  __init__ !! n
  = if decide (n ∈ Config.ALL_SERVOS) then Some (make_servo n) else None.
Proof.
  unfold __init__. rewrite foldl_insert_lookup, lookup_empty. reflexivity.
Qed.

Lemma limits_table (n : string) :
  default (0, 180) (Config.SERVO_LIMITS !! n) = (0, 180).
Proof.
  destruct (Config.SERVO_LIMITS !! n) as [v|] eqn:Hl; [|reflexivity].
  unfold Config.SERVO_LIMITS in Hl. simpl in Hl.
  repeat (apply lookup_insert_Some in Hl as [[_ <-]|[_ Hl]]; [reflexivity|]).
  rewrite lookup_empty in Hl. discriminate.
Qed.

Lemma center_table (n : string) :
  default 90 (Config.SERVO_CENTER !! n) = 90.
Proof.
  destruct (Config.SERVO_CENTER !! n) as [v|] eqn:Hl; [|reflexivity].
  unfold Config.SERVO_CENTER in Hl. simpl in Hl.
  repeat (apply lookup_insert_Some in Hl as [[_ <-]|[_ Hl]]; [reflexivity|]).
  rewrite lookup_empty in Hl. discriminate.
Qed.

Lemma make_servo_ok (n : string) : servo_ok (make_servo n).
Proof.
  unfold make_servo. rewrite limits_table, center_table.
  apply init_ok. lra.
Qed.

Lemma make_servo_static (n : string) :
  name (make_servo n) = n /\ min_angle (make_servo n) = 0
  /\ max_angle (make_servo n) = 180
  /\ inverted (make_servo n) = default false (Config.SERVO_INVERTED !! n).
Proof.
  unfold make_servo. rewrite limits_table. repeat split.
Qed.

Lemma make_servo_angles (n : string) :
  current_angle (make_servo n) = 90 /\ target_angle (make_servo n) = 90.
Proof.
  unfold make_servo. rewrite limits_table, center_table.
  split; [|reflexivity]. simpl.
  unfold Servo.clamp, Rmax, Rmin; simpl. repeat destruct Rle_dec; lra.
Qed.

Lemma init_bank_ok : bank_ok __init__.
Proof.
  intros n s Hl. rewrite init_lookup in Hl.
  destruct decide; [|discriminate]. injection Hl as <-. apply make_servo_ok.
Qed.

Lemma init_configured : configured __init__.
Proof.
  split; [|split].
  - intros n Hn. rewrite init_lookup. now rewrite decide_False.
  - intros n Hn. rewrite init_lookup. rewrite decide_True by exact Hn. eauto.
  - intros n s Hl. rewrite init_lookup in Hl.
    destruct decide; [|discriminate]. injection Hl as <-.
    apply make_servo_static.
Qed.

End InitialBank.

(** ** The gait controller touches the bank only through its methods *)

Section GaitFacts.
Context `{Ticks}.
Import GaitController.

Lemma set_pose_evolves (g : GaitController) (n : string) (i : bool) :
  bank_evolves (servos g) (servos (set_pose g n i)).
Proof. apply set_positions_evolves. Qed.

Lemma update_walk_evolves (g g' : GaitController) (dt : R) :
  update_walk g dt = Some g' -> bank_evolves (servos g) (servos g').
Proof.
  unfold update_walk. destruct (negb (is_walking g)).
  - intros [= <-]. apply bank_evolves_refl.
  - destruct Req_dec_T; [discriminate|]. intros Heq.
    apply (inj Some) in Heq. rewrite <- Heq.
    exact (set_positions_evolves _ _ _).
Qed.

Lemma next_evolves (g : GaitController) (now : Z) :
  bank_evolves (servos g) (servos (fst (_next g now))).
Proof.
  unfold _next. destruct (movement_queue g) as [|[pos dur] rest]; simpl.
  - apply bank_evolves_refl.
  - destruct (truthy pos); simpl.
    + apply set_positions_evolves.
    + apply bank_evolves_refl.
Qed.

Lemma queue_evolves (g : GaitController) (seq : list keyframe) (now : Z) :
  bank_evolves (servos g) (servos (_queue g seq now)).
Proof.
  unfold _queue.
  exact (next_evolves (with_movement g true seq (current_movement g)
           (movement_start_time g) (movement_duration g)) now).
Qed.

Lemma update_evolves (g g' : GaitController) (dt : R) (now : Z) :
  update g dt now = Some g' -> bank_evolves (servos g) (servos g').
Proof.
  unfold update. destruct (is_walking g); [apply update_walk_evolves|].
  destruct (is_moving g).
  - destruct Z_ge_dec; intros [= <-];
      [apply next_evolves|apply bank_evolves_refl].
  - intros [= <-]. apply bank_evolves_refl.
Qed.

Lemma run_evolves (c : call) (now : Z) (g g' : GaitController) :
  run c now g = Some g' -> bank_evolves (servos g) (servos g').
Proof.
  destruct c; cbn [run]; intros Heq;
    try (apply (inj Some) in Heq; rewrite <- Heq).
  - apply bank_evolves_refl.
  - exact (set_pose_evolves (with_is_walking g false) "stand" false).
  - apply set_pose_evolves.
  - apply queue_evolves.
  - apply queue_evolves.
  - apply queue_evolves.
  - apply queue_evolves.
  - apply queue_evolves.
  - apply bank_evolves_refl.
  - eapply update_evolves; exact Heq.
  - exact (update_all_evolves _ _).
  - exact (set_servo_evolves _ _ _ _).
  - exact (set_leg_evolves _ _ _ _ _).
  - exact (set_all_evolves _ _ _).
  - exact (set_positions_evolves _ _ _).
  - exact (center_all_evolves _ _).
  - exact (detach_all_evolves _).
  - exact (attach_all_evolves _).
Qed.

Lemma reachable_evolves (g : GaitController) :
  reachable g -> bank_evolves ServoController.__init__ (servos g).
Proof.
  induction 1 as [|g c now g' _ IH Hrun].
  - apply bank_evolves_refl.
  - eapply bank_evolves_trans; [exact IH|]. eapply run_evolves; exact Hrun.
Qed.

Lemma reachable_configured (g : GaitController) :
  reachable g -> configured (servos g).
Proof.
  intros Hr. eapply bank_evolves_configured;
    [apply reachable_evolves; exact Hr|apply init_configured].
Qed.

End GaitFacts.

(** ** Angle limits *)

(** C4.  In every state reachable from the initial one by calls of the
    motion API (with any requested angles, poses, gait writes, sequences and
    update steps), the current and the target angle of every joint lie
    within the joint's limits; and setting any angle on such a joint, in or
    out of range, yields a joint within its limits whose target is the
    request clamped into the limits. *)
Theorem angles_within_limits `{Ticks} (g : GaitController) (n : string)
    (s : Servo) :
  reachable g -> servos g !! n = Some s ->
  servo_ok s
  /\ forall (a : R) (i : bool),
       servo_ok (Servo.set_angle s a i)
       /\ target_angle (Servo.set_angle s a i) = Servo.clamp s a
       /\ min_angle s <= Servo.clamp s a <= max_angle s
       /\ (min_angle s <= a <= max_angle s -> Servo.clamp s a = a)
       /\ (a < min_angle s -> Servo.clamp s a = min_angle s)
       /\ (max_angle s < a -> Servo.clamp s a = max_angle s).
Proof.
  intros Hr Hl.
  assert (Hs : servo_ok s).
  { eapply (bank_evolves_ok _ _ (reachable_evolves g Hr) init_bank_ok).
    exact Hl. }
  split; [exact Hs|]. intros a i.
  pose proof (servo_ok_limits s Hs) as Hm.
  split; [now apply set_angle_ok|].
  split; [apply set_angle_target|].
  split; [now apply clamp_range|].
  unfold Servo.clamp, Rmax, Rmin.
  repeat split; intros; repeat destruct Rle_dec; lra.
Qed.

(** ** Unknown joint names *)

Lemma set_servo_unknown (b : bank) (n : string) (a : R) (i : bool) :
  b !! n = None -> ServoController.set_servo b n a i = b.
Proof. intros Hl. unfold ServoController.set_servo. now rewrite Hl. Qed.

Lemma set_positions_unknown (b : bank) (pos : positions) (i : bool) :
  (forall n, n ∈ pos.*1 -> b !! n = None) ->
  ServoController.set_positions b pos i = b.
Proof.
  induction pos as [|[n a] pos IH]; intros Hn; [reflexivity|].
  rewrite set_positions_cons, set_servo_unknown.
  - apply IH. intros m Hm. apply Hn. simpl. now right.
  - apply Hn. simpl. left.
Qed.

(** C9.  In every reachable state, a request to set the angle of a joint
    name outside the eight configured ones changes nothing: [set_servo]
    returns the bank as it was, so the snapshots of current and target
    angles are the same; an entry with such a name in a positions dict is
    skipped by [set_positions], and a dict of only such names leaves the
    bank as it was.  The calls are total: nothing is raised. *)
Theorem unknown_joint_ignored `{Ticks} (g : GaitController) (joint : string)
    (angle : R) (immediate : bool) :
  reachable g -> joint ∉ Config.ALL_SERVOS ->
  ServoController.set_servo (servos g) joint angle immediate = servos g
  /\ ServoController.get_positions
       (ServoController.set_servo (servos g) joint angle immediate)
     = ServoController.get_positions (servos g)
  /\ ServoController.get_targets
       (ServoController.set_servo (servos g) joint angle immediate)
     = ServoController.get_targets (servos g)
  /\ (forall pos,
        ServoController.set_positions (servos g) ((joint, angle) :: pos)
          immediate
        = ServoController.set_positions (servos g) pos immediate)
  /\ (forall pos, (forall n, n ∈ pos.*1 -> n ∉ Config.ALL_SERVOS) ->
        ServoController.set_positions (servos g) pos immediate = servos g).
Proof.
  intros Hr Hj. destruct (reachable_configured g Hr) as (Hout & _ & _).
  assert (Hs : ServoController.set_servo (servos g) joint angle immediate
               = servos g) by (apply set_servo_unknown, Hout, Hj).
  rewrite Hs. repeat split.
  - intros pos. now rewrite set_positions_cons, Hs.
  - intros pos Hpos. apply set_positions_unknown.
    intros n Hn. apply Hout, Hpos, Hn.
Qed.

(** ** Poses *)

Section Poses.
Import GaitController.

Lemma poses_neutral (g : GaitController) : poses g !!! "neutral" = neutral_pose.
Proof.
  unfold poses. simpl. apply lookup_total_insert_eq.
Qed.

Lemma get_pose_unknown (g : GaitController) (pose : string) :
  pose ∉ pose_names -> get_pose g pose = neutral_pose.
Proof.
  intros Hp. unfold get_pose. rewrite poses_neutral.
  destruct (poses g !! pose) as [v|] eqn:Hl; [|reflexivity].
  exfalso. unfold poses in Hl. simpl in Hl.
  repeat (apply lookup_insert_Some in Hl as [[<- _]|[_ Hl]];
          [apply Hp; unfold pose_names; set_solver|]).
  rewrite lookup_empty in Hl. discriminate.
Qed.

Lemma get_pose_keys (g : GaitController) (pose : string) :
  (get_pose g pose).*1 = Config.ALL_SERVOS.
Proof.
  unfold get_pose. rewrite poses_neutral.
  destruct (poses g !! pose) as [v|] eqn:Hl; [|reflexivity]. simpl.
  unfold poses in Hl. simpl in Hl.
  repeat (apply lookup_insert_Some in Hl as [[_ <-]|[_ Hl]]; [reflexivity|]).
  rewrite lookup_empty in Hl. discriminate.
Qed.

Lemma all_servos_NoDup : NoDup Config.ALL_SERVOS.
Proof.
  apply (bool_decide_unpack _). vm_compute. reflexivity.
Qed.

Lemma set_pose_lookup (g : GaitController) (pose : string) (i : bool)
    (n : string) (a : R) :
  (n, a) ∈ get_pose g pose ->
  servos (set_pose g pose i) !! n
  = (fun s => Servo.set_angle s a i) <$> servos g !! n.
Proof.
  intros Hin. apply set_positions_lookup_in; [|exact Hin].
  rewrite get_pose_keys. apply all_servos_NoDup.
Qed.

Lemma neutral_pose_entries (n : string) :
  n ∈ Config.ALL_SERVOS -> (n, 90) ∈ neutral_pose.
Proof.
  unfold Config.ALL_SERVOS, Config.FEMUR_SERVOS, Config.KNEE_SERVOS,
    neutral_pose. simpl. intros Hn.
  repeat (apply elem_of_cons in Hn as [->|Hn]; [set_solver|]).
  inversion Hn.
Qed.

End Poses.

(** C10.  A pose name that is none of neutral, stand, sit, tall, crouch is
    answered with the neutral pose: [get_pose] returns the neutral angle
    map, [set_pose] does exactly what it does for the name neutral, and in
    every reachable state each of the eight joints ends with target 90, and
    with current angle 90 as well when the call is immediate. *)
Theorem unknown_pose_is_neutral `{Ticks} (g : GaitController) (pose : string)
    (immediate : bool) :
  reachable g -> pose ∉ pose_names ->
  GaitController.get_pose g pose = GaitController.neutral_pose
  /\ GaitController.set_pose g pose immediate
     = GaitController.set_pose g "neutral" immediate
  /\ forall n, n ∈ Config.ALL_SERVOS ->
       exists s, servos (GaitController.set_pose g pose immediate) !! n
                 = Some s
         /\ target_angle s = 90
         /\ (immediate = true -> current_angle s = 90).
Proof.
  intros Hr Hp.
  assert (Hn : GaitController.get_pose g "neutral"
               = GaitController.neutral_pose).
  { unfold GaitController.get_pose. rewrite poses_neutral.
    unfold GaitController.poses. simpl. now rewrite lookup_insert_eq. }
  pose proof (get_pose_unknown g pose Hp) as Hg.
  split; [exact Hg|].
  split; [unfold GaitController.set_pose; now rewrite Hg, Hn|].
  intros n Hin. destruct (reachable_configured g Hr) as (_ & Hsome & Hst).
  destruct (Hsome n Hin) as [s Hs].
  destruct (Hst n s Hs) as (_ & Hlo & Hhi & _).
  exists (Servo.set_angle s 90 immediate).
  assert (Hc : Servo.clamp s 90 = 90) by (apply clamp_id; lra).
  split.
  - rewrite (set_pose_lookup g pose immediate n 90), Hs; [reflexivity|].
    rewrite Hg. now apply neutral_pose_entries.
  - rewrite set_angle_target, set_angle_current, Hc.
    split; [reflexivity|]. now intros ->.
Qed.

(** ** Modes *)

Section Modes.
Context `{Ticks}.
Import GaitController.

Lemma next_queue_inv (g : GaitController) (now : Z) :
  queue_inv g -> queue_inv (fst (_next g now)).
Proof.
  unfold queue_inv, _next. intros Hg.
  destruct (movement_queue g) as [|[pos dur] rest] eqn:Hq; simpl.
  - intros _. exact Hq.
  - destruct (truthy pos); simpl; intros Hm; apply Hg in Hm; discriminate.
Qed.

Lemma queue_queue_inv (g : GaitController) (seq : list keyframe) (now : Z) :
  queue_inv (_queue g seq now).
Proof.
  unfold queue_inv, _queue, _next. simpl.
  destruct seq as [|[pos dur] rest]; simpl; [reflexivity|].
  destruct (truthy pos); simpl; discriminate.
Qed.

Lemma update_walk_sequence (g g' : GaitController) (dt : R) :
  update_walk g dt = Some g' ->
  is_moving g' = is_moving g /\ movement_queue g' = movement_queue g
  /\ current_movement g' = current_movement g
  /\ movement_start_time g' = movement_start_time g
  /\ movement_duration g' = movement_duration g
  /\ is_walking g' = is_walking g.
Proof.
  unfold update_walk. destruct (negb (is_walking g)).
  - intros Heq. apply (inj Some) in Heq. subst g'. repeat split.
  - destruct Req_dec_T; [discriminate|]. intros Heq.
    apply (inj Some) in Heq. subst g'. repeat split.
Qed.

Lemma run_queue_inv (c : call) (now : Z) (g g' : GaitController) :
  run c now g = Some g' -> queue_inv g -> queue_inv g'.
Proof.
  destruct c; cbn [run]; intros Heq Hg;
    try (apply (inj Some) in Heq; subst g');
    try exact Hg; try apply queue_queue_inv.
  - intros _. reflexivity.
  - revert Heq. unfold update. destruct (is_walking g).
    + intros Heq. destruct (update_walk_sequence g g' dt Heq) as (Hm & Hq & _).
      unfold queue_inv. rewrite Hm, Hq. exact Hg.
    + destruct (is_moving g).
      * destruct Z_ge_dec; intros Heq; apply (inj Some) in Heq; subst g';
          [now apply next_queue_inv|exact Hg].
      * intros Heq. apply (inj Some) in Heq. now subst g'.
Qed.

Lemma reachable_queue_inv (g : GaitController) : reachable g -> queue_inv g.
Proof.
  induction 1 as [|g c now g' _ IH Hrun].
  - intros _. reflexivity.
  - eapply run_queue_inv; eassumption.
Qed.

Lemma next_cons (g : GaitController) (now : Z) (pos : option positions)
    (dur : R) (rest : list keyframe) :
  movement_queue g = (pos, dur) :: rest ->
  servos (fst (_next g now))
  = match truthy pos with
    | Some p => ServoController.set_positions (servos g) p true
    | None => servos g
    end
  /\ current_movement (fst (_next g now)) = Some (pos, dur)
  /\ movement_queue (fst (_next g now)) = rest
  /\ is_moving (fst (_next g now)) = is_moving g
  /\ is_walking (fst (_next g now)) = is_walking g
  /\ movement_start_time (fst (_next g now)) = now
  /\ movement_duration (fst (_next g now)) = py_int (dur * 1000).
Proof.
  intros Hq. unfold _next. rewrite Hq.
  destruct (truthy pos); repeat split.
Qed.

Lemma start_walk_sequence (g : GaitController) (d t sp : R) :
  is_moving (start_walk g d t sp) = is_moving g
  /\ movement_queue (start_walk g d t sp) = movement_queue g
  /\ current_movement (start_walk g d t sp) = current_movement g
  /\ movement_start_time (start_walk g d t sp) = movement_start_time g
  /\ movement_duration (start_walk g d t sp) = movement_duration g
  /\ servos (start_walk g d t sp) = servos g.
Proof. repeat split. Qed.

Lemma stop_walk_sequence (g : GaitController) :
  is_walking (stop_walk g) = false
  /\ is_moving (stop_walk g) = is_moving g
  /\ movement_queue (stop_walk g) = movement_queue g
  /\ current_movement (stop_walk g) = current_movement g
  /\ movement_start_time (stop_walk g) = movement_start_time g
  /\ movement_duration (stop_walk g) = movement_duration g.
Proof. repeat split. Qed.

End Modes.

(** C3, as the code has it.  The mode is not stored: [update] picks it by
    priority from two independent flags, Walking when [is_walking] holds,
    otherwise Sequenced when [is_moving] holds, otherwise Idle, and runs
    that branch only.  In every reachable state a sequence that is not
    marked as moving has an empty queue.  The two flags themselves are not
    exclusive. *)
Theorem mode_by_priority `{Ticks} (g : GaitController) :
  reachable g ->
  (is_moving g = false -> movement_queue g = [])
  /\ (mode g = Walking <-> is_walking g = true)
  /\ (mode g = Sequenced <-> is_walking g = false /\ is_moving g = true)
  /\ (mode g = Idle <-> is_walking g = false /\ is_moving g = false)
  /\ forall dt now,
       GaitController.update g dt now
       = match mode g with
         | Walking => GaitController.update_walk g dt
         | Sequenced =>
             if Z_ge_dec (ticks_diff now (movement_start_time g))
                         (movement_duration g)
             then Some (fst (GaitController._next g now))
             else Some g
         | Idle => Some g
         end.
Proof.
  intros Hr. split; [exact (reachable_queue_inv g Hr)|].
  unfold mode, GaitController.update.
  destruct (is_walking g), (is_moving g); repeat split;
    try discriminate; try reflexivity; intros [? ?]; discriminate.
Qed.

(** C1, as the code has it.  [set_pose] changes nothing but the bank: the
    walking flag, the sequence flag, the queue and the keyframe being played
    are as before, so the mode is the one it was.  Every joint named in the
    pose gets the pose's angle, clamped into its limits, as its target; its
    current angle becomes that value at once when the call is immediate and
    stays where it was when it is not. *)
Theorem set_pose_keeps_mode (g : GaitController) (pose : string)
    (immediate : bool) :
  let g' := GaitController.set_pose g pose immediate in
  is_walking g' = is_walking g
  /\ is_moving g' = is_moving g
  /\ movement_queue g' = movement_queue g
  /\ current_movement g' = current_movement g
  /\ mode g' = mode g
  /\ forall n a s,
       (n, a) ∈ GaitController.get_pose g pose -> servos g !! n = Some s ->
       exists s', servos g' !! n = Some s'
         /\ target_angle s' = Servo.clamp s a
         /\ current_angle s'
            = if immediate then Servo.clamp s a else current_angle s.
Proof.
  repeat split. intros n a s Hin Hs.
  exists (Servo.set_angle s a immediate).
  rewrite (set_pose_lookup g pose immediate n a Hin), Hs.
  split; [reflexivity|].
  split; [apply set_angle_target|apply set_angle_current].
Qed.

(** C2, as the code has it.  [start_walk] on a state with a sequence in
    progress leaves the sequence as it is: still marked as moving, same
    queue, same keyframe, same timing, same bank.  While walking, [update]
    does not touch the sequence; once [stop_walk] has been called, the first
    [update] after the current keyframe's time has elapsed plays the next
    keyframe of the very same queue. *)
Theorem start_walk_defers_sequence `{Ticks} (g : GaitController)
    (direction turn speed : R) :
  is_moving g = true -> movement_queue g <> [] ->
  let g1 := GaitController.start_walk g direction turn speed in
  is_walking g1 = true
  /\ is_moving g1 = true
  /\ movement_queue g1 = movement_queue g
  /\ current_movement g1 = current_movement g
  /\ movement_start_time g1 = movement_start_time g
  /\ movement_duration g1 = movement_duration g
  /\ servos g1 = servos g
  /\ (forall dt now g',
        GaitController.update g1 dt now = Some g' ->
        is_walking g' = true /\ is_moving g' = true
        /\ movement_queue g' = movement_queue g
        /\ current_movement g' = current_movement g)
  /\ (forall dt now,
        (ticks_diff now (movement_start_time g) >= movement_duration g)%Z ->
        let g2 := GaitController.stop_walk g1 in
        GaitController.update g2 dt now
        = Some (fst (GaitController._next g2 now))
        /\ movement_queue (fst (GaitController._next g2 now))
           = tail (movement_queue g)
        /\ current_movement (fst (GaitController._next g2 now))
           = head (movement_queue g)).
Proof.
  intros Hm Hq. cbv zeta.
  split; [reflexivity|]. split; [exact Hm|].
  do 5 (split; [reflexivity|]).
  split.
  - intros dt now g' Hu.
    assert (Hw : GaitController.update_walk
                   (GaitController.start_walk g direction turn speed) dt
                 = Some g') by exact Hu.
    destruct (update_walk_sequence _ _ dt Hw) as (Hm' & Hq' & Hc' & _ & _ & Hw').
    rewrite Hm', Hq', Hc', Hw'. repeat split. exact Hm.
  - intros dt now Hel.
    set (g2 := GaitController.stop_walk
                 (GaitController.start_walk g direction turn speed)).
    assert (Hq2 : movement_queue g2 = movement_queue g) by reflexivity.
    split; [|split].
    + unfold GaitController.update.
      change (is_walking g2) with false.
      change (is_moving g2) with (is_moving g). rewrite Hm.
      change (movement_start_time g2) with (movement_start_time g).
      change (movement_duration g2) with (movement_duration g).
      destruct Z_ge_dec; [reflexivity|contradiction].
    + unfold GaitController._next. rewrite Hq2.
      destruct (movement_queue g) as [|[pos dur] rest]; [contradiction|].
      destruct (GaitController.truthy pos); reflexivity.
    + unfold GaitController._next. rewrite Hq2.
      destruct (movement_queue g) as [|[pos dur] rest]; [contradiction|].
      destruct (GaitController.truthy pos); reflexivity.
Qed.

(** ** The walking phase *)

Section Phase.
Import GaitController.

Lemma update_walk_phase (g : GaitController) (dt : R) :
  is_walking g = true -> walk_speed g <> 0 ->
  exists g', update_walk g dt = Some g'
    /\ walk_phase g'
       = if Rge_dec (walk_phase g + dt / (0.8 / walk_speed g)) 1.0
         then walk_phase g + dt / (0.8 / walk_speed g) - 1.0
         else walk_phase g + dt / (0.8 / walk_speed g).
Proof.
  intros Hw Hs. unfold update_walk. rewrite Hw. cbn [negb].
  destruct Req_dec_T; [contradiction|]. eexists. split; reflexivity.
Qed.

(** X21.  When walking at a positive speed and one call adds less than a
    full cycle, [update_walk] succeeds, the wrap-around is the remainder
    modulo 1 and the phase stays in [0,1). *)
Lemma update_walk_phase_small_step (g : GaitController) (dt : R) :
  is_walking g = true -> 0 < walk_speed g -> 0 < dt ->
  0 <= walk_phase g < 1 -> dt / (0.8 / walk_speed g) < 1 ->
  exists g', update_walk g dt = Some g'
    /\ 0 <= walk_phase g' < 1
    /\ walk_phase g' = mod1 (walk_phase g + dt / (0.8 / walk_speed g)).
Proof.
  intros Hw Hs Hdt Hp Hinc.
  destruct (update_walk_phase g dt Hw) as (g' & Hu & Hph); [lra|].
  exists g'. split; [exact Hu|]. rewrite Hph.
  assert (Hpos : 0 < dt / (0.8 / walk_speed g)).
  { apply Rdiv_lt_0_compat; [exact Hdt|]. apply Rdiv_lt_0_compat; lra. }
  remember (dt / (0.8 / walk_speed g)) as inc eqn:Einc.
  unfold mod1, frac_part.
  destruct Rge_dec as [Hge|Hlt].
  - rewrite <- (Int_part_spec (walk_phase g + inc) 1) by lra. lra.
  - rewrite <- (Int_part_spec (walk_phase g + inc) 0) by lra. lra.
Qed.

End Phase.

(** C6 at an input that breaks it.  Walking at speed 100 (the command
    [fwd 100]) with a tick of 20 ms adds 2.5 cycles in one call;
    [update_walk] subtracts 1 once, so the stored phase is 1.5, outside
    [0,1) and not the remainder modulo 1, which is 0.5. *)
Theorem update_walk_phase_escapes :
  let g := GaitController.start_walk initial 1 0 100 in
  0 <= walk_phase g < 1
  /\ exists g', GaitController.update_walk g 0.02 = Some g'
       /\ walk_phase g' = 1.5
       /\ ~ (0 <= walk_phase g' < 1)
       /\ mod1 (walk_phase g + 0.02 / (0.8 / walk_speed g)) = 0.5.
Proof.
  cbv zeta.
  split; [change (walk_phase (GaitController.start_walk initial 1 0 100))
            with 0.0; lra|].
  destruct (update_walk_phase (GaitController.start_walk initial 1 0 100) 0.02)
    as (g' & Hu & Hph); [reflexivity|simpl; lra|].
  exists g'. split; [exact Hu|].
  change (walk_phase (GaitController.start_walk initial 1 0 100))
    with 0.0 in *.
  change (walk_speed (GaitController.start_walk initial 1 0 100))
    with 100 in *.
  assert (Hx : 0.0 + 0.02 / (0.8 / 100) = 2.5) by lra.
  rewrite Hx in *.
  destruct Rge_dec as [_|Hn] in Hph; [|lra].
  assert (Hp : walk_phase g' = 1.5) by lra.
  split; [exact Hp|]. split; [lra|].
  unfold mod1, frac_part. rewrite <- (Int_part_spec 2.5 2) by lra. lra.
Qed.

(** ** Conversion to the PWM duty *)

(** Whatever the limits of a servo are, the conversion of an inverted one
    reflects the angle about the fixed range 0..180.  That is the reflection
    by the servo's limits exactly when the limits add up to 180. *)
Lemma angle_to_duty_about_180 (s : Servo) (angle : R) :
  inverted s = true ->
  Servo._angle_to_duty s angle
  = py_int ((Servo.MIN_US
             + ((180 - angle) / 180) * (Servo.MAX_US - Servo.MIN_US))
            / 20000 * 65535)
  /\ (min_angle s + max_angle s = 180 ->
      reflect_by_limits s angle = 180 - angle
      /\ Servo._angle_to_duty s angle = toPhysicalValue_spec s angle)
  /\ (reflect_by_limits s angle = 180 - angle ->
      min_angle s + max_angle s = 180).
Proof.
  intros Hinv.
  unfold Servo._angle_to_duty, toPhysicalValue_spec, duty_of_pulse,
    reflect_by_limits, Servo.PWM_FREQ. rewrite Hinv.
  split; [f_equal; lra|]. split.
  - intros Hsum.
    assert (Hr : max_angle s - (angle - min_angle s) = 180 - angle) by lra.
    split; [exact Hr|]. rewrite Hr. f_equal. lra.
  - intros Hr. lra.
Qed.

Lemma inverted_table (n : string) :
  default false (Config.SERVO_INVERTED !! n) = true ->
  n ∈ ["L1"; "L2"; "R4"; "L3"].
Proof.
  destruct (Config.SERVO_INVERTED !! n) as [v|] eqn:Hl; [|discriminate].
  simpl. intros ->. unfold Config.SERVO_INVERTED in Hl. simpl in Hl.
  repeat (apply lookup_insert_Some in Hl as [[<- Hv]|[_ Hl]];
          [first [discriminate Hv | rewrite !elem_of_cons; tauto]|]).
  rewrite lookup_empty in Hl. discriminate.
Qed.

(** C7.  For every joint of every reachable state that is configured as
    inverted (these are L1, L2, R4 and L3) and every logical angle, the
    duty the code computes is the one obtained by first reflecting the
    angle by the joint's own limits, angle' = max_angle - (angle -
    min_angle), and then mapping the logical angle range linearly onto the
    pulse range 500..2500 microseconds and on to the 16-bit duty; whether
    the logical range is read as 0..180 or as the joint's limits makes no
    difference. *)
Theorem inverted_joint_reflects_by_limits `{Ticks} (g : GaitController)
    (n : string) (s : Servo) (angle : R) :
  reachable g -> servos g !! n = Some s -> inverted s = true ->
  n ∈ ["L1"; "L2"; "R4"; "L3"]
  /\ reflect_by_limits s angle = max_angle s - (angle - min_angle s)
  /\ Servo._angle_to_duty s angle = toPhysicalValue_spec s angle
  /\ Servo._angle_to_duty s angle = toPhysicalValue_spec_range s angle
  /\ Servo._angle_to_duty s angle
     = py_int ((500
                + (max_angle s - (angle - min_angle s) - min_angle s)
                  / (max_angle s - min_angle s) * (2500 - 500))
               / 20000 * 65535).
Proof.
  intros Hr Hl Hinv.
  destruct (reachable_configured g Hr) as (_ & _ & Hst).
  destruct (Hst n s Hl) as (_ & Hlo & Hhi & Hi).
  split; [apply inverted_table; now rewrite <- Hi|].
  split; [unfold reflect_by_limits; now rewrite Hinv|].
  destruct (angle_to_duty_about_180 s angle Hinv) as (Hd & Hsum & _).
  destruct Hsum as [Hrefl Hspec]; [rewrite Hlo, Hhi; lra|].
  split; [exact Hspec|].
  split.
  - rewrite Hd. unfold toPhysicalValue_spec_range, duty_of_pulse,
      Servo.PWM_FREQ. rewrite Hrefl, Hlo, Hhi. f_equal.
    unfold Servo.MIN_US, Servo.MAX_US. lra.
  - rewrite Hd, Hlo, Hhi. f_equal.
    unfold Servo.MIN_US, Servo.MAX_US. lra.
Qed.

(** ** The example states *)

Section Examples.
Import GaitController.

#[local] Existing Instance micropython_ticks.

Lemma reachable_waving : reachable waving.
Proof.
  apply (reachable_run initial Wave 0); [apply reachable_initial|reflexivity].
Qed.

Lemma reachable_waving_then_walking : reachable waving_then_walking.
Proof.
  apply (reachable_run waving (StartWalk 1 0 1) 0);
    [apply reachable_waving|reflexivity].
Qed.

Lemma waving_queue :
  movement_queue waving
  = [(Some [("R1", 60)], 0.2); (Some [("R1", 120)], 0.2);
     (Some [("R1", 60)], 0.2); (Some [("R1", 120)], 0.2);
     (Some [("R1", 90); ("R3", stand_knee initial)], 0.3)].
Proof. reflexivity. Qed.

Lemma waving_duration : movement_duration waving = 300%Z.
Proof.
  change (movement_duration waving) with (py_int (0.3 * 1000)).
  replace (0.3 * 1000) with (IZR 300) by lra. apply py_int_IZR.
Qed.

Lemma initial_lookup (n : string) :
  n ∈ Config.ALL_SERVOS ->
  servos initial !! n = Some (ServoController.make_servo n).
Proof.
  intros Hn. change (servos initial) with ServoController.__init__.
  rewrite init_lookup. now rewrite decide_True.
Qed.

Lemma get_pose_sit (g : GaitController) :
  get_pose g "sit"
  = [("R1", 90); ("R2", 90); ("L1", 90); ("L2", 90);
     ("R3", 45); ("R4", 45); ("L3", 45); ("L4", 45)].
Proof.
  unfold get_pose, poses. simpl.
  do 2 (rewrite lookup_insert_ne by discriminate).
  rewrite lookup_insert_eq. reflexivity.
Qed.

End Examples.

(** C1 fails.  After [set_pose] on a walking robot the mode is still
    Walking; after [set_pose] on a robot playing a sequence the mode is
    still Sequenced and the queue is still there; and a [set_pose] that is
    not immediate leaves the current angle where it was (knee R3 has target
    45 but is still at 90). *)
Lemma set_pose_does_not_interrupt :
  let walking := GaitController.start_walk initial 1 0 1 in
  mode walking = Walking
  /\ mode (GaitController.set_pose walking "sit" true) = Walking
  /\ mode (GaitController.set_pose walking "sit" true) <> Idle
  /\ mode waving = Sequenced
  /\ mode (GaitController.set_pose waving "sit" true) = Sequenced
  /\ movement_queue (GaitController.set_pose waving "sit" true) <> []
  /\ exists s, servos (GaitController.set_pose initial "sit" false) !! "R3"
               = Some s
       /\ target_angle s = 45 /\ current_angle s = 90.
Proof.
  cbv zeta. do 2 (split; [reflexivity|]). split; [discriminate|].
  do 2 (split; [reflexivity|]). split; [discriminate|].
  assert (Hin : "R3" ∈ Config.ALL_SERVOS)
    by (apply (bool_decide_unpack _); vm_compute; reflexivity).
  exists (Servo.set_angle (ServoController.make_servo "R3") 45 false).
  split.
  - rewrite (set_pose_lookup initial "sit" false "R3" 45).
    + now rewrite (initial_lookup "R3" Hin).
    + rewrite get_pose_sit.
      do 4 apply list_elem_of_further. apply list_elem_of_here.
  - rewrite set_angle_target, set_angle_current.
    destruct (make_servo_static "R3") as (_ & Hlo & Hhi & _).
    destruct (make_servo_angles "R3") as [Hc _].
    split; [apply clamp_id; lra|exact Hc].
Qed.

(** C2 fails.  [start_walk] on the waving robot leaves the sequence marked
    as moving with its five remaining keyframes queued; and they are played
    after all: once [stop_walk] has been called, the update at clock 300
    plays the next keyframe and puts joint R1 at 60 degrees. *)
Lemma start_walk_keeps_sequence :
  is_moving waving = true
  /\ movement_queue waving <> []
  /\ is_moving waving_then_walking = true
  /\ movement_queue waving_then_walking = movement_queue waving
  /\ length (movement_queue waving_then_walking) = 5%nat
  /\ exists g' s,
       @GaitController.update micropython_ticks
         (GaitController.stop_walk waving_then_walking) 0.02 300 = Some g'
       /\ current_movement g' = Some (Some [("R1", 60)], 0.2)
       /\ length (movement_queue g') = 4%nat
       /\ servos g' !! "R1" = Some s
       /\ current_angle s = 60.
Proof.
  unfold waving_then_walking.
  destruct (start_walk_sequence waving 1 0 1)
    as (Hm1 & Hq1 & _ & Ht1 & Hd1 & _).
  destruct (stop_walk_sequence (GaitController.start_walk waving 1 0 1))
    as (Hw & Hm & Hq & _ & Ht & Hd).
  assert (Hm0 : is_moving waving = true) by reflexivity.
  assert (Ht0 : movement_start_time waving = 0%Z) by reflexivity.
  rewrite Hm1, Hq1, waving_queue.
  split; [exact Hm0|]. split; [discriminate|].
  do 3 (split; [reflexivity|]).
  rewrite Hm1, Hm0 in Hm. rewrite Hq1, waving_queue in Hq.
  rewrite Ht1, Ht0 in Ht. rewrite Hd1, waving_duration in Hd.
  assert (Hr : @reachable micropython_ticks
                 (GaitController.stop_walk
                    (GaitController.start_walk waving 1 0 1))).
  { apply (reachable_run waving_then_walking StopWalk 0);
      [apply reachable_waving_then_walking|reflexivity]. }
  revert Hr Hw Hm Hq Ht Hd.
  generalize (GaitController.stop_walk (GaitController.start_walk waving 1 0 1)).
  intros g2 Hr Hw Hm Hq Ht Hd.
  assert (Hin : "R1" ∈ Config.ALL_SERVOS)
    by (apply (bool_decide_unpack _); vm_compute; reflexivity).
  destruct (reachable_configured g2 Hr) as (_ & Hsome & Hst).
  destruct (Hsome "R1" Hin) as [s Hs].
  destruct (Hst "R1" s Hs) as (_ & Hlo & Hhi & _).
  destruct (next_cons g2 300 _ _ _ Hq) as (Hb & Hc & Hrest & _).
  exists (fst (GaitController._next g2 300)), (Servo.set_angle s 60 true).
  split; [|split; [exact Hc|split; [now rewrite Hrest|split]]].
  - unfold GaitController.update. rewrite Hw, Hm, Ht, Hd.
    destruct Z_ge_dec as [_|Hn]; [reflexivity|].
    exfalso. apply Hn. vm_compute. discriminate.
  - rewrite Hb. cbn [GaitController.truthy].
    rewrite (set_positions_cons (servos g2) "R1" 60 [] true).
    change (ServoController.set_positions ?b [] true) with b.
    rewrite set_servo_lookup, decide_True by reflexivity.
    now rewrite Hs.
  - rewrite set_angle_current. apply clamp_id. lra.
Qed.

(** C3 fails.  Starting a walk on the waving robot reaches a state in which
    the walking flag and the sequence flag hold together. *)
Lemma walking_and_moving_together :
  @reachable micropython_ticks waving_then_walking
  /\ is_walking waving_then_walking = true
  /\ is_moving waving_then_walking = true
  /\ movement_queue waving_then_walking <> [].
Proof.
  split; [apply reachable_waving_then_walking|].
  split; [reflexivity|]. split; [reflexivity|discriminate].
Qed.

(** ** The theorems at concrete inputs *)

Lemma start_walk_defers_sequence_witness :
  is_moving waving = true /\ movement_queue waving <> []
  /\ is_moving (GaitController.start_walk waving 1 0 1) = true
  /\ movement_queue (GaitController.start_walk waving 1 0 1)
     = movement_queue waving.
Proof.
  assert (Hm : is_moving waving = true) by reflexivity.
  assert (Hq : movement_queue waving <> []) by discriminate.
  split; [exact Hm|]. split; [exact Hq|].
  pose proof (@start_walk_defers_sequence micropython_ticks waving 1 0 1 Hm Hq)
    as Ht.
  cbv zeta in Ht. destruct Ht as (_ & Hm' & Hq' & _).
  split; [exact Hm'|exact Hq'].
Defined.

Lemma mode_by_priority_witness :
  @reachable micropython_ticks waving_then_walking
  /\ mode waving_then_walking = Walking.
Proof.
  split; [apply reachable_waving_then_walking|].
  destruct (@mode_by_priority micropython_ticks waving_then_walking
              reachable_waving_then_walking) as (_ & [_ Hw] & _).
  apply Hw. reflexivity.
Defined.

Lemma angles_within_limits_witness :
  let g := with_servos_R1_500 in
  let s := Servo.set_angle (ServoController.make_servo "R1") 500 true in
  @reachable micropython_ticks g /\ servos g !! "R1" = Some s
  /\ servo_ok s /\ target_angle (Servo.set_angle s 700 false) = Servo.clamp s 700.
Proof.
  cbv zeta.
  assert (Hr : @reachable micropython_ticks with_servos_R1_500).
  { apply (reachable_run initial (SetServo "R1" 500 true) 0);
      [apply reachable_initial|reflexivity]. }
  assert (Hl : servos with_servos_R1_500 !! "R1"
               = Some (Servo.set_angle (ServoController.make_servo "R1")
                         500 true)).
  { change (servos with_servos_R1_500)
      with (ServoController.set_servo (servos initial) "R1" 500 true).
    rewrite set_servo_lookup, decide_True by reflexivity.
    rewrite initial_lookup; [reflexivity|].
    apply (bool_decide_unpack _); vm_compute; reflexivity. }
  split; [exact Hr|]. split; [exact Hl|].
  destruct (@angles_within_limits micropython_ticks _ _ _ Hr Hl) as [Hok Hset].
  split; [exact Hok|]. apply (Hset 700 false).
Defined.

Lemma servo_update_converges_witness :
  let s := Servo.set_angle (ServoController.make_servo "R1") 100 false in
  servo_ok s /\ 0 < 0.02 /\ 0 < rate s None
  /\ exists n, distance (steps 0.02 None n s) < 0.5.
Proof.
  cbv zeta.
  assert (Hs : servo_ok
                 (Servo.set_angle (ServoController.make_servo "R1") 100 false))
    by (apply set_angle_ok, make_servo_ok).
  assert (Hdt : 0 < 0.02) by lra.
  assert (Hr : 0 < rate (Servo.set_angle (ServoController.make_servo "R1")
                           100 false) None)
    by apply default_speed_pos.
  split; [exact Hs|]. split; [exact Hdt|]. split; [exact Hr|].
  destruct (servo_update_converges _ 0.02 None Hs Hdt Hr)
    as (_ & _ & _ & n & Hn & _).
  exists n. exact Hn.
Defined.

Lemma unknown_joint_ignored_witness :
  @reachable micropython_ticks initial /\ ("ZZ" ∉ Config.ALL_SERVOS)
  /\ ServoController.set_servo (servos initial) "ZZ" 45 true = servos initial.
Proof.
  assert (Hn : "ZZ" ∉ Config.ALL_SERVOS)
    by (apply (bool_decide_unpack _); vm_compute; reflexivity).
  split; [apply reachable_initial|]. split; [exact Hn|].
  destruct (@unknown_joint_ignored micropython_ticks initial "ZZ" 45 true
              reachable_initial Hn) as [Hs _].
  exact Hs.
Defined.

Lemma unknown_pose_is_neutral_witness :
  @reachable micropython_ticks initial /\ ("dance" ∉ pose_names)
  /\ GaitController.get_pose initial "dance" = GaitController.neutral_pose.
Proof.
  assert (Hn : "dance" ∉ pose_names)
    by (apply (bool_decide_unpack _); vm_compute; reflexivity).
  split; [apply reachable_initial|]. split; [exact Hn|].
  destruct (@unknown_pose_is_neutral micropython_ticks initial "dance" true
              reachable_initial Hn) as [Hg _].
  exact Hg.
Defined.

Lemma L1_configured : "L1" ∈ Config.ALL_SERVOS.
Proof. apply (bool_decide_unpack _). vm_compute. reflexivity. Qed.

Lemma inverted_joint_reflects_by_limits_witness :
  let s := ServoController.make_servo "L1" in
  @reachable micropython_ticks initial
  /\ servos initial !! "L1" = Some s
  /\ inverted s = true
  /\ Servo._angle_to_duty s 45 = toPhysicalValue_spec s 45.
Proof.
  cbv zeta.
  pose proof (initial_lookup "L1" L1_configured) as Hl.
  assert (Hi : inverted (ServoController.make_servo "L1") = true)
    by reflexivity.
  split; [apply reachable_initial|]. split; [exact Hl|]. split; [exact Hi|].
  destruct (@inverted_joint_reflects_by_limits micropython_ticks initial "L1"
              _ 45 reachable_initial Hl Hi) as (_ & _ & Hspec & _).
  exact Hspec.
Defined.

(** * Further properties of the code *)

(** ** The PWM duty *)

Section Duty.
Import Servo.

Lemma Int_part_mono (x y : R) : x <= y -> (Int_part x <= Int_part y)%Z.
Proof.
  intros Hxy. destruct (base_Int_part x) as [Hx _].
  destruct (base_Int_part y) as [_ Hy].
  apply Z.lt_succ_r. apply lt_IZR. rewrite succ_IZR. lra.
Qed.

Lemma Int_part_nonneg (x : R) : 0 <= x -> (0 <= Int_part x)%Z.
Proof.
  intros Hx. destruct (base_Int_part x) as [_ Hy].
  apply Z.lt_succ_r. apply lt_IZR. rewrite succ_IZR. lra.
Qed.

Lemma py_int_mono (x y : R) : x <= y -> (py_int x <= py_int y)%Z.
Proof.
  intros Hxy. unfold py_int.
  destruct (Rle_dec 0 x) as [Hx|Hx], (Rle_dec 0 y) as [Hy|Hy].
  - now apply Int_part_mono.
  - lra.
  - assert (Hx' : (0 <= Int_part (- x))%Z) by (apply Int_part_nonneg; lra).
    pose proof (Int_part_nonneg y Hy). lia.
  - assert (Hm : (Int_part (- y) <= Int_part (- x))%Z)
      by (apply Int_part_mono; lra).
    lia.
Qed.

Lemma angle_to_duty_eq (s : Servo) (a : R) :
  _angle_to_duty s a
  = py_int ((500 + (if inverted s then 180 - a else a) / 180 * 2000)
            / 20000 * 65535).
Proof.
  unfold _angle_to_duty, MIN_US, MAX_US, PWM_FREQ. f_equal.
  destruct (inverted s); lra.
Qed.

Lemma angle_to_duty_bounds (s : Servo) (a : R) :
  0 <= a <= 180 -> (1638 <= _angle_to_duty s a <= 8191)%Z.
Proof.
  intros Ha. rewrite angle_to_duty_eq.
  set (b := if inverted s then 180 - a else a).
  assert (Hb : 0 <= b <= 180) by (unfold b; destruct (inverted s); lra).
  clearbody b. split.
  - rewrite <- (py_int_between 1638.375 1638) by lra.
    apply py_int_mono. lra.
  - rewrite <- (py_int_between 8191.875 8191) by lra.
    apply py_int_mono. lra.
Qed.

Lemma write_angle_duty_ok (s : Servo) (a : R) :
  0 <= min_angle s -> min_angle s <= max_angle s -> max_angle s <= 180 ->
  duty_ok (_write_angle s a).
Proof.
  intros H0 Hm H180. right. simpl. apply angle_to_duty_bounds.
  pose proof (clamp_range s a Hm). lra.
Qed.

Lemma evolves_duty_ok (s s' : Servo) :
  evolves s s' ->
  0 <= min_angle s -> min_angle s <= max_angle s -> max_angle s <= 180 ->
  duty_ok s -> duty_ok s'.
Proof.
  induction 1 as [s|s1 s2 s3 H12 IH1 _ IH2|s a i|s dt sp|s|s];
    intros H0 Hm H180 Hd.
  - exact Hd.
  - destruct (evolves_static s1 s2 H12) as (_ & Hlo & Hhi & _).
    apply IH2; rewrite ?Hlo, ?Hhi; auto.
  - destruct i; [|exact Hd].
    apply (write_angle_duty_ok
             (mkServo (name s) (pin_num s) (inverted s) (min_angle s)
                (max_angle s) (center s) (current_angle s) (clamp s a)
                (pwm_duty s))); assumption.
  - unfold update. destruct Rlt_dec; [exact Hd|].
    now apply write_angle_duty_ok.
  - now left.
  - now apply write_angle_duty_ok.
Qed.

Lemma make_servo_duty_ok (n : string) :
  duty_ok (ServoController.make_servo n).
Proof.
  unfold ServoController.make_servo. rewrite limits_table.
  apply write_angle_duty_ok; simpl; lra.
Qed.

End Duty.

(** X1.  For every servo, inverted or not, and every angle between 0 and
    180 degrees, the duty lies between 1638 and 8191, the duties of pulses
    of 500 and 2500 microseconds; the two ends are reached at 0 and 180
    degrees, swapped for an inverted servo. *)
Theorem angle_to_duty_range (s : Servo) (a : R) :
  0 <= a <= 180 ->
  (1638 <= Servo._angle_to_duty s a <= 8191)%Z
  /\ Servo._angle_to_duty s (if inverted s then 180 else 0) = 1638%Z
  /\ Servo._angle_to_duty s (if inverted s then 0 else 180) = 8191%Z.
Proof.
  intros Ha. split; [now apply angle_to_duty_bounds|].
  rewrite !angle_to_duty_eq.
  destruct (inverted s); split; apply py_int_between; lra.
Qed.

(** X2.  The duty follows the angle: for a servo that is not inverted a
    larger angle never gives a smaller duty, for an inverted servo a larger
    angle never gives a larger duty. *)
Theorem angle_to_duty_monotone (s : Servo) (a b : R) :
  a <= b ->
  if inverted s
  then (Servo._angle_to_duty s b <= Servo._angle_to_duty s a)%Z
  else (Servo._angle_to_duty s a <= Servo._angle_to_duty s b)%Z.
Proof.
  intros Hab. rewrite !angle_to_duty_eq.
  destruct (inverted s); apply py_int_mono; lra.
Qed.

(** X3.  In every reachable state the duty last written to any servo is
    either 0 (detached) or between 1638 and 8191: no call of the motion
    API, with whatever angles, produces a pulse outside 500 to 2500
    microseconds. *)
Theorem duty_within_pulse_range `{Ticks} (g : GaitController) (n : string)
    (s : Servo) :
  reachable g -> servos g !! n = Some s -> duty_ok s.
Proof.
  intros Hr Hl. pose proof (reachable_evolves g Hr n) as He.
  rewrite Hl in He. inversion He as [s0 ? Hev Hs0|]; subst.
  symmetry in Hs0. rewrite init_lookup in Hs0.
  destruct decide; [|discriminate]. injection Hs0 as <-.
  destruct (make_servo_static n) as (_ & Hlo & Hhi & _).
  eapply evolves_duty_ok; [exact Hev|rewrite ?Hlo, ?Hhi; lra..|].
  apply make_servo_duty_ok.
Qed.

(** X4.  [detach] zeroes the duty and keeps both angles; [attach] on a
    servo whose angles are within its limits writes the duty of the current
    angle and keeps both angles.  So detaching and attaching again gives
    back a servo that carried the duty of its current angle. *)
Theorem attach_after_detach (s : Servo) :
  servo_ok s ->
  pwm_duty (Servo.detach s) = 0%Z
  /\ current_angle (Servo.detach s) = current_angle s
  /\ target_angle (Servo.detach s) = target_angle s
  /\ current_angle (Servo.attach (Servo.detach s)) = current_angle s
  /\ target_angle (Servo.attach (Servo.detach s)) = target_angle s
  /\ pwm_duty (Servo.attach (Servo.detach s))
     = Servo._angle_to_duty s (current_angle s)
  /\ (pwm_duty s = Servo._angle_to_duty s (current_angle s) ->
      Servo.attach (Servo.detach s) = s).
Proof.
  intros [Hc Ht].
  assert (Hid : Servo.clamp s (current_angle s) = current_angle s)
    by (apply clamp_id; exact Hc).
  destruct s as [n p inv lo hi c cur tgt d]; simpl in *.
  unfold Servo.attach, Servo.detach, Servo._write_angle, Servo.clamp in *;
    simpl in *.
  rewrite Hid. repeat split.
  intros ->. reflexivity.
Qed.

(** ** Bulk operations of the bank *)

Section BankExtras.
Import ServoController.

Lemma legs_lookup (l fn kn : string) :
  LEGS !! l = Some (fn, kn) ->
  (l, (fn, kn)) ∈ [("FR", ("R1", "R3")); ("FL", ("L1", "L3"));
                   ("BR", ("R2", "R4")); ("BL", ("L2", "L4"))].
Proof.
  unfold LEGS. intros Hl. apply elem_of_list_to_map_2 in Hl. exact Hl.
Qed.

Lemma legs_unknown (l : string) :
  l ∉ ["FR"; "FL"; "BR"; "BL"] -> LEGS !! l = None.
Proof.
  intros Hl. unfold LEGS. apply not_elem_of_list_to_map_1. exact Hl.
Qed.

Lemma update_all_lookup (b : bank) (dt : R) (n : string) :
  fst (update_all b dt) !! n
  = (fun s => fst (Servo.update s dt None)) <$> b !! n.
Proof. unfold update_all. simpl. apply lookup_fmap. Qed.

Lemma update_snd_false (s : Servo) (dt : R) (sp : option R) :
  snd (Servo.update s dt sp) = false <-> distance s < 0.5.
Proof.
  unfold Servo.update. fold (distance s).
  destruct Rlt_dec; simpl; split; intros; try assumption; try reflexivity;
    try discriminate; contradiction.
Qed.

Lemma update_all_flag (b : bank) (dt : R) :
  snd (update_all b dt) = false
  <-> map_Forall (fun _ s => distance s < 0.5) b.
Proof.
  unfold update_all. simpl. rewrite bool_decide_eq_false. split.
  - intros Hn k s Hl. apply (update_snd_false s dt None).
    destruct (snd (Servo.update s dt None)) eqn:Hs; [|reflexivity].
    exfalso. apply Hn. exists k, s. split; assumption.
  - intros Hall (k & s & Hl & Hs). simpl in Hs.
    pose proof (proj2 (update_snd_false s dt None) (Hall k s Hl)) as Hf.
    congruence.
Qed.

Lemma bank_steps_S (dt : R) (n : nat) (b : bank) :
  bank_steps dt (S n) b = fst (update_all (bank_steps dt n b) dt).
Proof. reflexivity. Qed.

Lemma bank_steps_lookup (dt : R) (n : nat) (b : bank) (k : string) :
  bank_steps dt n b !! k = steps dt None n <$> b !! k.
Proof.
  induction n as [|n IH].
  - simpl. now destruct (b !! k).
  - rewrite bank_steps_S, update_all_lookup, IH.
    destruct (b !! k); reflexivity.
Qed.

Lemma steps_settled_mono (dt : R) (sp : option R) (n m : nat) (s : Servo) :
  distance (steps dt sp n s) < 0.5 -> (n <= m)%nat ->
  distance (steps dt sp m s) < 0.5.
Proof.
  intros Hd Hnm. now rewrite (steps_stay dt sp n m s Hd Hnm).
Qed.

Lemma bank_settles (b : bank) (dt : R) :
  bank_ok b -> 0 < dt ->
  exists n, map_Forall (fun _ s => distance (steps dt None n s) < 0.5) b.
Proof.
  intros Hb Hdt. induction b as [|k s b Hk _ IH] using map_first_key_ind.
  - exists 0%nat. apply map_Forall_empty.
  - apply map_Forall_insert in Hb as [Hs Hb]; [|exact Hk].
    destruct (IH Hb) as [n1 Hn1].
    destruct (steps_settle dt None s Hs) as [n2 Hn2].
    { apply Rmult_lt_0_compat; [apply default_speed_pos|exact Hdt]. }
    exists (Nat.max n1 n2). apply map_Forall_insert; [exact Hk|]. split.
    + eapply steps_settled_mono; [exact Hn2|lia].
    + intros k' s' Hl. eapply steps_settled_mono; [exact (Hn1 k' s' Hl)|lia].
Qed.

End BankExtras.

(** X5.  [set_leg] with a name that is none of FR, FL, BR, BL changes
    nothing.  With the name of a leg it does what [set_positions] does for
    the leg's femur and knee joint, and every other joint is left as it
    was. *)
Theorem set_leg_two_joints (b : bank) (leg : string) (femur_angle
    knee_angle : R) (immediate : bool) :
  (leg ∉ ["FR"; "FL"; "BR"; "BL"] ->
   ServoController.set_leg b leg femur_angle knee_angle immediate = b)
  /\ forall fn kn, ServoController.LEGS !! leg = Some (fn, kn) ->
       fn ∈ Config.FEMUR_SERVOS /\ kn ∈ Config.KNEE_SERVOS
       /\ ServoController.set_leg b leg femur_angle knee_angle immediate
          = ServoController.set_positions b
              [(fn, femur_angle); (kn, knee_angle)] immediate
       /\ forall n, n <> fn -> n <> kn ->
            ServoController.set_leg b leg femur_angle knee_angle immediate
            !! n = b !! n.
Proof.
  split.
  - intros Hl. unfold ServoController.set_leg. now rewrite legs_unknown.
  - intros fn kn Hl. unfold ServoController.set_leg. rewrite Hl.
    apply legs_lookup in Hl.
    split; [|split; [|split; [reflexivity|]]].
    + repeat (apply elem_of_cons in Hl as [Hl|Hl];
              [injection Hl as _ -> _;
               apply (bool_decide_unpack _); vm_compute; reflexivity|]).
      inversion Hl.
    + repeat (apply elem_of_cons in Hl as [Hl|Hl];
              [injection Hl as _ _ ->;
               apply (bool_decide_unpack _); vm_compute; reflexivity|]).
      inversion Hl.
    + intros n Hf Hk. rewrite !set_servo_lookup.
      rewrite !decide_False by congruence. reflexivity.
Qed.

(** X6.  When no joint is named twice, the order in which a positions dict
    lists its entries does not matter to [set_positions]. *)
Theorem set_positions_order_irrelevant (b : bank) (pos pos' : positions)
    (immediate : bool) :
  NoDup pos.*1 -> pos ≡ₚ pos' ->
  ServoController.set_positions b pos immediate
  = ServoController.set_positions b pos' immediate.
Proof.
  intros Hnd Hp.
  assert (Hnd' : NoDup pos'.*1) by (now rewrite <- Hp).
  apply map_eq. intros n.
  destruct (decide (n ∈ pos.*1)) as [Hin|Hout].
  - apply list_elem_of_fmap in Hin as ([n' a] & -> & Hin). simpl.
    rewrite (set_positions_lookup_in b pos immediate n' a Hnd Hin).
    rewrite (set_positions_lookup_in b pos' immediate n' a Hnd');
      [reflexivity|now rewrite <- Hp].
  - rewrite set_positions_lookup_notin by exact Hout.
    rewrite set_positions_lookup_notin; [reflexivity|now rewrite <- Hp].
Qed.

(** X7.  [update_all] reports that nothing is moving exactly when every
    servo is within half a degree of its target, and then it returns the
    bank as it was. *)
Theorem update_all_settled (b : bank) (dt : R) :
  (snd (ServoController.update_all b dt) = false
   <-> map_Forall (fun _ s => distance s < 0.5) b)
  /\ (snd (ServoController.update_all b dt) = false ->
      fst (ServoController.update_all b dt) = b).
Proof.
  split; [apply update_all_flag|]. intros Hf.
  apply update_all_flag in Hf. apply map_eq. intros n.
  rewrite update_all_lookup. destruct (b !! n) as [s|] eqn:Hl; [|reflexivity].
  simpl. now rewrite update_settled by exact (Hf n s Hl).
Qed.

(** X8.  Smooth movement of the whole bank ends: for a bank whose angles
    are within their limits and a positive time step, after finitely many
    [update_all] calls every further call reports that nothing is moving
    and leaves the bank as it is. *)
Theorem update_all_converges (b : bank) (dt : R) :
  bank_ok b -> 0 < dt ->
  exists n, forall m, (n <= m)%nat ->
    ServoController.update_all (bank_steps dt m b) dt
    = (bank_steps dt n b, false).
Proof.
  intros Hb Hdt. destruct (bank_settles b dt Hb Hdt) as [n Hn].
  exists n. intros m Hnm.
  assert (Heq : bank_steps dt m b = bank_steps dt n b).
  { apply map_eq. intros k. rewrite !bank_steps_lookup.
    destruct (b !! k) as [s|] eqn:Hl; [|reflexivity]. simpl. f_equal.
    exact (steps_stay dt None n m s (Hn k s Hl) Hnm). }
  rewrite Heq.
  assert (Hall : map_Forall (fun _ s => distance s < 0.5) (bank_steps dt n b)).
  { intros k s Hl. rewrite bank_steps_lookup in Hl.
    destruct (b !! k) as [s0|] eqn:Hl0; [|discriminate].
    injection Hl as <-. exact (Hn k s0 Hl0). }
  pose proof (proj2 (update_all_flag (bank_steps dt n b) dt) Hall) as Hf.
  destruct (ServoController.update_all (bank_steps dt n b) dt) as [b' f] eqn:Hu.
  simpl in Hf. subst f. f_equal.
  change b' with (fst (b', false)). rewrite <- Hu.
  apply map_eq. intros k. rewrite update_all_lookup.
  destruct (bank_steps dt n b !! k) as [s|] eqn:Hl; [|reflexivity].
  simpl. now rewrite update_settled by exact (Hall k s Hl).
Qed.

(** ** The walk cycle *)

Section WalkCycle.
Import GaitController.

Lemma sin_half_turn (x : R) : sin ((x + 0.5) * 2 * PI) = - sin (x * 2 * PI).
Proof.
  replace ((x + 0.5) * 2 * PI) with (x * 2 * PI + PI) by lra.
  apply neg_sin.
Qed.

Lemma Rmax0_unit (x : R) : -1 <= x <= 1 -> 0 <= Rmax 0 x <= 1.
Proof. intros Hx. unfold Rmax. destruct Rle_dec; lra. Qed.

Lemma Rmax0_either (x : R) : Rmax 0 x = 0 \/ Rmax 0 (- x) = 0.
Proof. unfold Rmax. repeat destruct Rle_dec; lra. Qed.

(** The eight entries of [get_walk_positions], with the half-cycle shift
    of group B written as a change of sign. *)
Lemma get_walk_positions_eq (g : GaitController) (p d t : R) :
  get_walk_positions g p d t
  = let x := sin (mod1 p * 2 * PI) in
    let swing := (step_fwd g - step_back g) / 2 in
    let center := (step_fwd g + step_back g) / 2 in
    let lift := step_lift g - step_plant g in
    [("R1", center + x * swing * d - 15 * t);
     ("R3", step_plant g + Rmax 0 x * lift);
     ("L2", center + x * swing * d + 15 * t);
     ("L4", step_plant g + Rmax 0 x * lift);
     ("L1", center + - x * swing * d + 15 * t);
     ("L3", step_plant g + Rmax 0 (- x) * lift);
     ("R2", center + - x * swing * d - 15 * t);
     ("R4", step_plant g + Rmax 0 (- x) * lift)].
Proof.
  unfold get_walk_positions. cbv zeta. rewrite sin_half_turn. reflexivity.
Qed.

End WalkCycle.


(** X10.  At every phase, direction and turn at least one diagonal pair of
    feet is on the ground: the knees of group A (R3, L4) or the knees of
    group B (L3, R4) are at [step_plant]; and the two knees of a group are
    always at the same angle. *)
Theorem one_group_always_planted (g : GaitController) (p d t : R) :
  let W := GaitController.get_walk_positions g p d t in
  exists a b,
    angle_of W "R3" = Some a /\ angle_of W "L4" = Some a
    /\ angle_of W "L3" = Some b /\ angle_of W "R4" = Some b
    /\ (a = step_plant g \/ b = step_plant g).
Proof.
  cbv zeta. rewrite get_walk_positions_eq. cbv zeta.
  cbn [angle_of String.eqb Ascii.eqb Bool.eqb].
  do 2 eexists. do 4 (split; [reflexivity|]).
  destruct (Rmax0_either (sin (mod1 p * 2 * PI))) as [-> | ->]; [left|right];
    lra.
Qed.

(** X12.  With the shipped gait parameters, a direction and a turn between
    -1 and 1, every angle of the walk cycle is within the joint limits 0 to
    180: the femurs stay between 50 and 130 degrees and the knees between
    110 and 180. *)
Theorem walk_positions_in_range (g : GaitController) (p d t : R) :
  shipped_gait g -> -1 <= d <= 1 -> -1 <= t <= 1 ->
  Forall (fun na : string * R =>
            0 <= na.2 <= 180
            /\ (na.1 ∈ Config.FEMUR_SERVOS -> 50 <= na.2 <= 130)
            /\ (na.1 ∈ Config.KNEE_SERVOS -> 110 <= na.2 <= 180))
         (GaitController.get_walk_positions g p d t).
Proof.
  intros (_ & _ & Hl & Hp & Hf & Hb) Hd Ht.
  rewrite get_walk_positions_eq. cbv zeta. rewrite Hl, Hp, Hf, Hb.
  pose proof (SIN_bound (mod1 p * 2 * PI)) as Hs.
  set (x := sin (mod1 p * 2 * PI)) in *. clearbody x.
  assert (Hm1 : 0 <= Rmax 0 x <= 1) by (apply Rmax0_unit; lra).
  assert (Hm2 : 0 <= Rmax 0 (- x) <= 1) by (apply Rmax0_unit; lra).
  assert (Hxd : -1 <= x * d <= 1) by nra.
  replace (x * ((115 - 65) / 2) * d) with (25 * (x * d)) by field.
  replace (- x * ((115 - 65) / 2) * d) with (- 25 * (x * d)) by field.
  set (y := x * d) in *. clearbody y.
  set (u := Rmax 0 x) in *. set (v := Rmax 0 (- x)) in *. clearbody u v.
  repeat (apply Forall_cons; split;
    [simpl; split; [lra|split; intros Hn;
       first [lra
             |exfalso; pose proof (bool_decide_pack _ Hn) as Hn';
              vm_compute in Hn'; exact Hn']]|]).
  apply Forall_nil_2.
Qed.

(** ** Walking, poses and the bank *)

Section GaitExtras.
Context `{Ticks}.
Import GaitController.

Lemma next_shipped_gait (g : GaitController) (now : Z) :
  shipped_gait g -> shipped_gait (fst (_next g now)).
Proof.
  unfold _next. destruct (movement_queue g) as [|[pos dur] rest]; simpl;
    [auto|]. destruct (truthy pos); auto.
Qed.

Lemma run_shipped_gait (c : call) (now : Z) (g g' : GaitController) :
  run c now g = Some g' -> shipped_gait g -> shipped_gait g'.
Proof.
  destruct c; cbn [run]; intros Heq Hg;
    try (apply (inj Some) in Heq; subst g'); try exact Hg;
    try (apply (next_shipped_gait
                  (with_movement g true _ (current_movement g)
                     (movement_start_time g) (movement_duration g)) now Hg)).
  revert Heq. unfold update. destruct (is_walking g) eqn:Hw.
  - unfold update_walk. rewrite Hw. cbn [negb].
    destruct Req_dec_T; intros Heq; [discriminate|].
    apply (inj Some) in Heq. subst g'. exact Hg.
  - destruct (is_moving g).
    + destruct Z_ge_dec; intros Heq; apply (inj Some) in Heq; subst g';
        [now apply next_shipped_gait|exact Hg].
    + intros Heq. apply (inj Some) in Heq. now subst g'.
Qed.

Lemma initial_shipped_gait : shipped_gait initial.
Proof.
  unfold shipped_gait, initial, GaitController.__init__, Config.GAIT.
  cbn [stand_femur stand_knee step_lift step_plant step_fwd step_back].
  simpl list_to_map.
  repeat split;
    repeat (rewrite lookup_insert_ne by discriminate);
    rewrite lookup_insert_eq; reflexivity.
Qed.

Lemma reachable_shipped_gait (g : GaitController) :
  reachable g -> shipped_gait g.
Proof.
  induction 1 as [|g c now g' _ IH Hrun].
  - apply initial_shipped_gait.
  - eapply run_shipped_gait; eassumption.
Qed.

Lemma update_all_fixpoint (b : bank) (dt : R) :
  map_Forall (fun _ s => distance s < 0.5) b ->
  ServoController.update_all b dt = (b, false).
Proof.
  intros Hall.
  pose proof (proj2 (update_all_flag b dt) Hall) as Hf.
  destruct (ServoController.update_all b dt) as [b' f] eqn:Hu.
  simpl in Hf. subst f. f_equal.
  change b' with (fst (b', false)). rewrite <- Hu.
  apply map_eq. intros k. rewrite update_all_lookup.
  destruct (b !! k) as [s|] eqn:Hl; [|reflexivity].
  simpl. now rewrite update_settled by exact (Hall k s Hl).
Qed.

Lemma walk_keys (g : GaitController) (p d t : R) :
  (get_walk_positions g p d t).*1
  = ["R1"; "R3"; "L2"; "L4"; "L1"; "L3"; "R2"; "R4"].
Proof. reflexivity. Qed.

Lemma walk_keys_all (n : string) :
  n ∈ Config.ALL_SERVOS <-> n ∈ ["R1"; "R3"; "L2"; "L4"; "L1"; "L3"; "R2"; "R4"].
Proof.
  unfold Config.ALL_SERVOS, Config.FEMUR_SERVOS, Config.KNEE_SERVOS. simpl.
  rewrite !elem_of_cons, !elem_of_nil. tauto.
Qed.

Lemma walk_keys_NoDup :
  NoDup ["R1"; "R3"; "L2"; "L4"; "L1"; "L3"; "R2"; "R4"].
Proof. apply (bool_decide_unpack _). vm_compute. reflexivity. Qed.

Lemma key_entry (pos : positions) (n : string) :
  n ∈ pos.*1 -> exists a, (n, a) ∈ pos.
Proof.
  intros Hin. apply list_elem_of_fmap in Hin as ([n' a] & -> & Hin).
  exists a. exact Hin.
Qed.

Lemma set_positions_all_immediate (b : bank) (pos : positions) (n : string)
    (s' : Servo) :
  NoDup pos.*1 -> (forall k, is_Some (b !! k) -> k ∈ pos.*1) ->
  ServoController.set_positions b pos true !! n = Some s' ->
  exists s a, b !! n = Some s /\ (n, a) ∈ pos
    /\ s' = Servo.set_angle s a true
    /\ current_angle s' = Servo.clamp s a
    /\ target_angle s' = Servo.clamp s a.
Proof.
  intros Hnd Hall Hl.
  pose proof (set_positions_evolves b pos true n) as He.
  rewrite Hl in He. inversion He as [s ? _ Hs|]; subst. symmetry in Hs.
  destruct (key_entry pos n) as [a Ha]; [apply Hall; eauto|].
  rewrite (set_positions_lookup_in b pos true n a Hnd Ha), Hs in Hl.
  change (Some (Servo.set_angle s a true) = Some s') in Hl.
  apply (inj Some) in Hl. subst s'. exists s, a.
  rewrite (set_angle_current s a true), (set_angle_target s a true). auto.
Qed.

Lemma get_pose_stand (g : GaitController) :
  get_pose g "stand"
  = [("R1", stand_femur g); ("R2", stand_femur g);
     ("L1", stand_femur g); ("L2", stand_femur g);
     ("R3", stand_knee g); ("R4", stand_knee g);
     ("L3", stand_knee g); ("L4", stand_knee g)].
Proof.
  unfold get_pose, poses. simpl.
  rewrite lookup_insert_ne by discriminate.
  rewrite lookup_insert_eq. reflexivity.
Qed.

Lemma get_pose_in_range (g : GaitController) (pose : string) :
  shipped_gait g ->
  Forall (fun na : string * R => 0 <= na.2 <= 180) (get_pose g pose).
Proof.
  intros (Hf & Hk & _). unfold get_pose. rewrite poses_neutral.
  assert (Hn : Forall (fun na : string * R => 0 <= na.2 <= 180) neutral_pose).
  { unfold neutral_pose. repeat (apply Forall_cons; split; [simpl; lra|]).
    apply Forall_nil_2. }
  destruct (poses g !! pose) as [v|] eqn:Hl; [|exact Hn]. simpl.
  unfold poses in Hl. simpl in Hl. rewrite Hf, Hk in Hl.
  repeat (apply lookup_insert_Some in Hl as [[_ <-]|[_ Hl]];
    [repeat (apply Forall_cons; split; [simpl; lra|]); apply Forall_nil_2|]).
  rewrite lookup_empty in Hl. discriminate.
Qed.

End GaitExtras.

(** X13.  Walking bypasses smoothing.  In every reachable state that is
    walking, an [update] that completes leaves every joint with its current
    angle equal to its target, so an [update_all] afterwards, with any time
    step, changes nothing and reports that nothing is moving; and a joint
    whose gait angle is between 0 and 180 is exactly at that angle. *)
Theorem walking_bypasses_smoothing `{Ticks} (g g' : GaitController) (dt : R)
    (now : Z) :
  reachable g -> is_walking g = true ->
  GaitController.update g dt now = Some g' ->
  (forall n s, servos g' !! n = Some s -> current_angle s = target_angle s)
  /\ (forall dt', ServoController.update_all (servos g') dt'
                  = (servos g', false))
  /\ (forall n a,
        (n, a) ∈ GaitController.get_walk_positions g' (walk_phase g')
                   (walk_direction g') (turn_direction g') ->
        0 <= a <= 180 ->
        exists s, servos g' !! n = Some s /\ current_angle s = a).
Proof.
  intros Hr Hw Hu. destruct (reachable_configured g Hr) as (Hout & Hin & Hst).
  revert Hu. unfold GaitController.update. rewrite Hw.
  unfold GaitController.update_walk. rewrite Hw. cbn [negb].
  destruct Req_dec_T as [|_]; intros Hu; [discriminate|].
  apply (inj Some) in Hu. subst g'.
  set (ph := if Rge_dec _ _ then _ else _).
  set (g1 := GaitController.with_walk_phase g ph).
  change (servos (GaitController.with_servos g1 ?b)) with b.
  change (walk_phase (GaitController.with_servos g1 ?b)) with (walk_phase g1).
  change (walk_direction (GaitController.with_servos g1 ?b))
    with (walk_direction g1).
  change (turn_direction (GaitController.with_servos g1 ?b))
    with (turn_direction g1).
  change (servos g1) with (servos g).
  set (W := GaitController.get_walk_positions g1 (walk_phase g1)
              (walk_direction g1) (turn_direction g1)).
  assert (Hnd : NoDup W.*1) by (unfold W; rewrite walk_keys;
                                apply walk_keys_NoDup).
  assert (Hall : forall k, is_Some (servos g !! k) -> k ∈ W.*1).
  { intros k Hk. unfold W. rewrite walk_keys. apply walk_keys_all.
    destruct (decide (k ∈ Config.ALL_SERVOS)) as [Hi|Ho]; [exact Hi|].
    rewrite (Hout k Ho) in Hk. destruct Hk as [? Hk]. discriminate. }
  assert (Heq : forall n s, ServoController.set_positions (servos g) W true
                            !! n = Some s ->
                  current_angle s = target_angle s).
  { intros n s Hl.
    destruct (set_positions_all_immediate _ _ _ _ Hnd Hall Hl)
      as (s0 & a & _ & _ & _ & -> & ->). reflexivity. }
  split; [exact Heq|]. split.
  - intros dt'. apply update_all_fixpoint. intros n s Hl.
    unfold distance. rewrite (Heq n s Hl).
    replace (target_angle s - target_angle s) with 0 by lra.
    rewrite Rabs_R0. lra.
  - intros n a Ha Hrange.
    assert (Hk : n ∈ Config.ALL_SERVOS).
    { apply walk_keys_all. rewrite <- (walk_keys g1 (walk_phase g1)
        (walk_direction g1) (turn_direction g1)).
      apply list_elem_of_fmap. exists (n, a). auto. }
    destruct (Hin n Hk) as [s0 Hs0].
    destruct (Hst n s0 Hs0) as (_ & Hlo & Hhi & _).
    exists (Servo.set_angle s0 a true). split.
    + now rewrite (set_positions_lookup_in _ W true n a Hnd Ha), Hs0.
    + rewrite set_angle_current. apply clamp_id. lra.
Qed.

(** X15.  An immediate [set_pose] puts the robot exactly into the pose: in
    every reachable state and for every pose name, the snapshot of current
    angles and the snapshot of target angles afterwards are the pose's
    angle map. *)
Theorem set_pose_immediate_exact `{Ticks} (g : GaitController)
    (pose : string) :
  reachable g ->
  ServoController.get_positions
    (servos (GaitController.set_pose g pose true))
  = list_to_map (GaitController.get_pose g pose)
  /\ ServoController.get_targets
       (servos (GaitController.set_pose g pose true))
     = list_to_map (GaitController.get_pose g pose).
Proof.
  intros Hr. destruct (reachable_configured g Hr) as (Hout & Hin & Hst).
  pose proof (get_pose_in_range g pose (reachable_shipped_gait g Hr)) as Hrg.
  pose proof (get_pose_keys g pose) as Hk.
  assert (Hnd : NoDup (GaitController.get_pose g pose).*1)
    by (rewrite Hk; apply all_servos_NoDup).
  assert (Hpt : forall n,
    current_angle <$> servos (GaitController.set_pose g pose true) !! n
    = (list_to_map (GaitController.get_pose g pose) : gmap string R) !! n
    /\ target_angle <$> servos (GaitController.set_pose g pose true) !! n
       = (list_to_map (GaitController.get_pose g pose) : gmap string R) !! n).
  { intros n. destruct (decide (n ∈ Config.ALL_SERVOS)) as [Hi|Ho].
    - destruct (key_entry (GaitController.get_pose g pose) n) as [a Ha];
        [now rewrite Hk|].
      rewrite (set_pose_lookup g pose true n a Ha).
      destruct (Hin n Hi) as [s Hs]. rewrite Hs.
      cbn [fmap option_fmap option_map].
      destruct (Hst n s Hs) as (_ & Hlo & Hhi & _).
      rewrite (elem_of_list_to_map_1 _ n a Hnd Ha).
      rewrite set_angle_current, set_angle_target.
      rewrite Forall_forall in Hrg. specialize (Hrg (n, a) Ha). simpl in Hrg.
      rewrite clamp_id by lra. split; reflexivity.
    - unfold GaitController.set_pose.
      change (servos (GaitController.with_servos g ?b)) with b.
      rewrite set_positions_lookup_notin by (now rewrite Hk).
      rewrite (Hout n Ho). simpl.
      rewrite (not_elem_of_list_to_map_1 _ n); [split; reflexivity|].
      now rewrite Hk. }
  split; apply map_eq; intros n;
    unfold ServoController.get_positions, ServoController.get_targets;
    rewrite lookup_fmap; apply Hpt.
Qed.

(** ** Sequences of keyframes *)

Section Sequences.
Import GaitController.

Lemma next_nil (g : GaitController) (now : Z) :
  movement_queue g = [] -> fst (_next g now) = with_is_moving g false.
Proof. intros Hq. unfold _next. now rewrite Hq. Qed.

Lemma play_S (now : Z) (k : nat) (g : GaitController) :
  play now (S k) g = fst (_next (play now k g) now).
Proof. reflexivity. Qed.

Lemma next_queue (g : GaitController) (now : Z) :
  movement_queue (fst (_next g now)) = tail (movement_queue g)
  /\ is_walking (fst (_next g now)) = is_walking g
  /\ is_moving (fst (_next g now))
     = match movement_queue g with [] => false | _ => is_moving g end
  /\ current_movement (fst (_next g now))
     = match movement_queue g with
       | [] => current_movement g
       | kf :: _ => Some kf
       end.
Proof.
  destruct (movement_queue g) as [|[pos dur] rest] eqn:Hq.
  - rewrite (next_nil g now Hq). simpl. rewrite Hq. repeat split.
  - destruct (next_cons g now pos dur rest Hq)
      as (_ & -> & -> & -> & -> & _). repeat split.
Qed.

Lemma tail_drop {A} (l : list A) (k : nat) : tail (drop k l) = drop (S k) l.
Proof.
  revert l. induction k as [|k IH]; intros [|x l]; simpl; auto.
Qed.

Lemma play_queue (now : Z) (k : nat) (g : GaitController) :
  movement_queue (play now k g) = drop k (movement_queue g)
  /\ is_walking (play now k g) = is_walking g
  /\ is_moving (play now k g)
     = if decide (k <= length (movement_queue g))%nat then is_moving g
       else false.
Proof.
  induction k as [|k (IHq & IHw & IHm)].
  - change (play now 0 g) with g. rewrite decide_True by lia.
    repeat split.
  - rewrite play_S.
    destruct (next_queue (play now k g) now) as (Hq & Hw & Hm & _).
    rewrite Hq, Hw, Hm, IHq, IHw, IHm. split; [|split; [reflexivity|]].
    + apply tail_drop.
    + destruct (drop k (movement_queue g)) as [|kf rest] eqn:Hd.
      * apply drop_nil_inv in Hd. rewrite decide_False by lia. reflexivity.
      * assert (Hlen : (k < length (movement_queue g))%nat).
        { destruct (decide (k < length (movement_queue g))%nat) as [?|Hn];
            [assumption|].
          rewrite drop_ge in Hd by lia. discriminate. }
        rewrite !decide_True by lia. reflexivity.
Qed.

End Sequences.

(** X16.  The queue is played strictly first in, first out.  After k calls
    of [_next] the queue is the old one without its first k keyframes, the
    keyframe being played is the k-th of the old queue, the walking flag is
    untouched, and the sequence stays marked as moving as long as k does not
    exceed the number of queued keyframes: the flag falls on the first call
    that finds the queue empty. *)
Theorem sequence_is_fifo (g : GaitController) (now : Z) (k : nat) :
  movement_queue (play now k g) = drop k (movement_queue g)
  /\ is_walking (play now k g) = is_walking g
  /\ is_moving (play now k g)
     = (if decide (k <= length (movement_queue g))%nat then is_moving g
        else false)
  /\ forall kf, movement_queue g !! k = Some kf ->
       current_movement (play now (S k) g) = Some kf.
Proof.
  destruct (play_queue now k g) as (Hq & Hw & Hm).
  split; [exact Hq|]. split; [exact Hw|]. split; [exact Hm|].
  intros kf Hk. rewrite play_S.
  destruct (next_queue (play now k g) now) as (_ & _ & _ & ->).
  rewrite Hq. rewrite <- (Nat.add_0_r k), <- lookup_drop in Hk.
  destruct (drop k (movement_queue g)); [discriminate|].
  simpl in Hk. now injection Hk as ->.
Qed.

(** X17.  Starting a sequence replaces whatever was queued before.  The
    first keyframe is taken at once and the rest is queued; the old queue
    has no influence on the result.  A sequence of n keyframes is marked as
    moving through n - 1 further calls of [_next] and is over, with an
    empty queue, after the n-th.  An empty sequence is over at once and
    leaves the bank as it was. *)
Theorem queue_replaces_sequence (g : GaitController) (seq : list keyframe)
    (now now' : Z) :
  let g' := GaitController._queue g seq now in
  movement_queue g' = tail seq
  /\ current_movement g'
     = match seq with [] => current_movement g | kf :: _ => Some kf end
  /\ (forall q, GaitController._queue
                  (GaitController.with_movement_queue g q) seq now = g')
  /\ (seq = [] -> is_moving g' = false /\ servos g' = servos g)
  /\ (forall k, (k < length seq)%nat ->
        is_moving (play now' k g') = true)
  /\ is_moving (play now' (length seq) g') = false
  /\ movement_queue (play now' (length seq) g') = [].
Proof.
  cbv zeta. unfold GaitController._queue.
  set (g0 := GaitController.with_movement g true seq (current_movement g)
               (movement_start_time g) (movement_duration g)).
  destruct (next_queue g0 now) as (Hq & _ & Hm & Hc).
  change (movement_queue g0) with seq in *.
  change (is_moving g0) with true in *.
  change (current_movement g0) with (current_movement g) in *.
  split; [exact Hq|]. split; [exact Hc|]. split; [reflexivity|].
  split; [intros ->; split; reflexivity|].
  destruct (play_queue now' (length seq) (fst (GaitController._next g0 now)))
    as (Hpq & _ & Hpm).
  split; [|split].
  - intros k Hk.
    destruct (play_queue now' k (fst (GaitController._next g0 now)))
      as (_ & _ & ->).
    rewrite Hq, Hm. destruct seq as [|kf rest]; [simpl in Hk; lia|].
    cbn [tail]. simpl in Hk. rewrite decide_True by lia. reflexivity.
  - rewrite Hpm, Hq, Hm. destruct seq as [|kf rest]; cbn [tail length].
    + now rewrite decide_True by lia.
    + rewrite decide_False by lia. reflexivity.
  - rewrite Hpq, Hq. apply drop_ge. destruct seq; simpl; lia.
Qed.

(** X18.  A keyframe moves only the joints it names.  When [_next] takes a
    keyframe from the queue, a keyframe without positions ([None] or an
    empty dict, a pause) leaves the bank as it was, and one with positions
    leaves every joint it does not name as it was and sets each joint it
    names, immediately, to the named angle clamped into the joint's
    limits. *)
Theorem keyframe_moves_named_joints_only (g : GaitController) (now : Z)
    (pos : option positions) (dur : R) (rest : list keyframe) :
  movement_queue g = (pos, dur) :: rest ->
  let g' := fst (GaitController._next g now) in
  ((pos = None \/ pos = Some []) -> servos g' = servos g)
  /\ forall p, pos = Some p ->
       (forall n, n ∉ p.*1 -> servos g' !! n = servos g !! n)
       /\ (NoDup p.*1 -> forall n a s, (n, a) ∈ p ->
             servos g !! n = Some s ->
             exists s', servos g' !! n = Some s'
               /\ current_angle s' = Servo.clamp s a
               /\ target_angle s' = Servo.clamp s a).
Proof.
  intros Hq. cbv zeta.
  destruct (next_cons g now pos dur rest Hq) as (Hb & _).
  split.
  - intros [-> | ->]; exact Hb.
  - intros p ->. destruct p as [|e p].
    + simpl in Hb. split.
      * intros n _. now rewrite Hb.
      * intros _ n a s Hin. inversion Hin.
    + cbn [GaitController.truthy] in Hb. rewrite Hb. split.
      * intros n Hn. now apply set_positions_lookup_notin.
      * intros Hnd n a s Hin Hs.
        exists (Servo.set_angle s a true).
        rewrite (set_positions_lookup_in _ _ true n a Hnd Hin), Hs.
        split; [reflexivity|].
        now rewrite set_angle_current, set_angle_target.
Qed.

(** ** Stopping *)

Section Stopping.
Context `{Ticks}.
Import GaitController.

Lemma center_lookup (n : string) :
  n ∈ Config.ALL_SERVOS -> Config.SERVO_CENTER !!! n = 90.
Proof.
  intros Hn. rewrite lookup_total_alt.
  change Config.SERVO_CENTER with (list_to_map neutral_pose : gmap string R).
  rewrite (elem_of_list_to_map_1 neutral_pose n 90);
    [reflexivity| |now apply neutral_pose_entries].
  change (neutral_pose.*1) with Config.ALL_SERVOS. apply all_servos_NoDup.
Qed.

Lemma init_angles (n : string) :
  (current_angle <$> ServoController.__init__ !! n)
  = (if decide (n ∈ Config.ALL_SERVOS) then Some 90 else None)
  /\ (target_angle <$> ServoController.__init__ !! n)
     = (if decide (n ∈ Config.ALL_SERVOS) then Some 90 else None).
Proof.
  rewrite init_lookup. destruct decide; [|split; reflexivity].
  destruct (make_servo_angles n) as [Hc Ht].
  cbn [fmap option_fmap option_map]. now rewrite Hc, Ht.
Qed.

End Stopping.

(** X19.  [stop_walk] returns to the stand pose smoothly.  In every
    reachable state it clears the walking flag, leaves the sequence flag and
    the current angle of every joint as they were, and sets the target of
    every femur to 90 and of every knee to 180 degrees, to be approached by
    later [update_all] calls. *)
Theorem stop_walk_is_smooth `{Ticks} (g : GaitController) :
  reachable g ->
  let g' := GaitController.stop_walk g in
  is_walking g' = false
  /\ is_moving g' = is_moving g
  /\ ServoController.get_positions (servos g')
     = ServoController.get_positions (servos g)
  /\ (forall n, n ∈ Config.FEMUR_SERVOS ->
        ServoController.get_targets (servos g') !! n = Some 90)
  /\ (forall n, n ∈ Config.KNEE_SERVOS ->
        ServoController.get_targets (servos g') !! n = Some 180).
Proof.
  intros Hr. cbv zeta.
  destruct (reachable_configured g Hr) as (Hout & Hin & Hst).
  destruct (reachable_shipped_gait g Hr) as (Hf & Hk & _).
  split; [reflexivity|]. split; [reflexivity|].
  set (g0 := GaitController.with_is_walking g false).
  change (GaitController.stop_walk g)
    with (GaitController.set_pose g0 "stand" false).
  assert (Hs0 : servos g0 = servos g) by reflexivity.
  assert (Hpose : GaitController.get_pose g0 "stand"
            = [("R1", 90); ("R2", 90); ("L1", 90); ("L2", 90);
               ("R3", 180); ("R4", 180); ("L3", 180); ("L4", 180)]).
  { rewrite get_pose_stand.
    change (stand_femur g0) with (stand_femur g).
    change (stand_knee g0) with (stand_knee g). now rewrite Hf, Hk. }
  assert (Htarget : forall n a,
            (n, a) ∈ GaitController.get_pose g0 "stand" -> 0 <= a <= 180 ->
            ServoController.get_targets
              (servos (GaitController.set_pose g0 "stand" false)) !! n
            = Some a).
  { intros n a Ha Hrange.
    assert (Hn : n ∈ Config.ALL_SERVOS).
    { rewrite <- (get_pose_keys g0 "stand"). apply list_elem_of_fmap.
      exists (n, a). auto. }
    unfold ServoController.get_targets. rewrite lookup_fmap.
    rewrite (set_pose_lookup g0 "stand" false n a Ha), Hs0.
    destruct (Hin n Hn) as [s Hs]. rewrite Hs.
    destruct (Hst n s Hs) as (_ & Hlo & Hhi & _).
    cbn [fmap option_fmap option_map]. rewrite set_angle_target.
    f_equal. apply clamp_id. lra. }
  split; [|split].
  - apply map_eq. intros n. unfold ServoController.get_positions.
    rewrite !lookup_fmap.
    destruct (decide (n ∈ Config.ALL_SERVOS)) as [Hi|Ho].
    + destruct (key_entry (GaitController.get_pose g0 "stand") n) as [a Ha];
        [now rewrite get_pose_keys|].
      rewrite (set_pose_lookup g0 "stand" false n a Ha), Hs0.
      destruct (servos g !! n) as [s|]; [|reflexivity].
      cbn [fmap option_fmap option_map]. now rewrite set_angle_current.
    + unfold GaitController.set_pose.
      change (servos (GaitController.with_servos g0 ?b)) with b.
      rewrite set_positions_lookup_notin; [now rewrite Hs0|].
      now rewrite get_pose_keys.
  - intros n Hn. apply Htarget; [|lra]. rewrite Hpose.
    unfold Config.FEMUR_SERVOS in Hn.
    repeat (apply elem_of_cons in Hn as [->|Hn];
            [rewrite !elem_of_cons; tauto|]).
    inversion Hn.
  - intros n Hn. apply Htarget; [|lra]. rewrite Hpose.
    unfold Config.KNEE_SERVOS in Hn.
    repeat (apply elem_of_cons in Hn as [->|Hn];
            [rewrite !elem_of_cons; tauto|]).
    inversion Hn.
Qed.

(** X20.  [center_all] brings the robot back to the angles it was built
    with.  In every reachable state an immediate [center_all] makes the
    snapshots of current and of target angles those of the fresh bank
    (every joint at 90); one that is not immediate does so for the targets
    only and leaves the current angles as they were. *)
Theorem center_all_resets `{Ticks} (g : GaitController) :
  reachable g ->
  ServoController.get_positions (ServoController.center_all (servos g) true)
  = ServoController.get_positions ServoController.__init__
  /\ ServoController.get_targets (ServoController.center_all (servos g) true)
     = ServoController.get_targets ServoController.__init__
  /\ ServoController.get_targets (ServoController.center_all (servos g) false)
     = ServoController.get_targets ServoController.__init__
  /\ ServoController.get_positions
       (ServoController.center_all (servos g) false)
     = ServoController.get_positions (servos g).
Proof.
  intros Hr. destruct (reachable_configured g Hr) as (Hout & Hin & Hst).
  assert (Hpt : forall n i,
    (current_angle <$> ServoController.center_all (servos g) i !! n)
    = (if i then current_angle <$> ServoController.__init__ !! n
       else current_angle <$> servos g !! n)
    /\ (target_angle <$> ServoController.center_all (servos g) i !! n)
       = (target_angle <$> ServoController.__init__ !! n)).
  { intros n i. unfold ServoController.center_all. rewrite map_lookup_imap.
    destruct (init_angles n) as [-> ->].
    destruct (decide (n ∈ Config.ALL_SERVOS)) as [Hi|Ho].
    - destruct (Hin n Hi) as [s Hs]. rewrite Hs.
      destruct (Hst n s Hs) as (_ & Hlo & Hhi & _).
      cbn [mbind option_bind fmap option_fmap option_map].
      rewrite (center_lookup n Hi), set_angle_current, set_angle_target.
      rewrite clamp_id by lra. destruct i; split; reflexivity.
    - rewrite (Hout n Ho). destruct i; split; reflexivity. }
  repeat split; apply map_eq; intros n;
    unfold ServoController.get_positions, ServoController.get_targets;
    rewrite !lookup_fmap.
  - apply (Hpt n true).
  - apply (Hpt n true).
  - apply (Hpt n false).
  - apply (Hpt n false).
Qed.

(** ** The robot facade *)

Section RobotFacts.
Context `{Ticks} `{EyeAnimation E}.

Lemma exec_reachable (c : Robot.command) (now : Z) (r r' : Robot E) :
  Robot.exec c now r = Some r' -> reachable (gait r) -> reachable (gait r').
Proof.
  intros Hx Hr.
  destruct c; cbn [Robot.exec] in Hx;
    try (apply (inj Some) in Hx; subst r').
  - exact (reachable_run _ (SetPose "stand" true) now _ Hr eq_refl).
  - apply (reachable_run _ DetachAll now _
             (reachable_run _ StopAll now _ Hr eq_refl) eq_refl).
  - unfold Robot.update in Hx.
    destruct (GaitController.update (gait r) _ now) as [g|] eqn:Hu;
      [|discriminate].
    apply (inj Some) in Hx. subst r'.
    exact (reachable_run _ (UpdateAll _) now _
             (reachable_run _ (Update _) now _ Hr Hu) eq_refl).
  - exact (reachable_run _ (StartWalk 1 0 speed) now _ Hr eq_refl).
  - exact (reachable_run _ (StartWalk (-1) 0 speed) now _ Hr eq_refl).
  - exact (reachable_run _ (StartWalk 1 (-1) speed) now _ Hr eq_refl).
  - exact (reachable_run _ (StartWalk 1 1 speed) now _ Hr eq_refl).
  - exact (reachable_run _ StopWalk now _ Hr eq_refl).
  - exact (reachable_run _ (SetPose "stand" true) now _ Hr eq_refl).
  - exact (reachable_run _ (SetPose "sit" true) now _ Hr eq_refl).
  - exact (reachable_run _ (SetPose "crouch" true) now _ Hr eq_refl).
  - exact (reachable_run _ Wave now _ Hr eq_refl).
  - exact (reachable_run _ Bow now _ Hr eq_refl).
  - exact (reachable_run _ Shake now _ Hr eq_refl).
  - exact (reachable_run _ Wiggle now _ Hr eq_refl).
  - exact Hr.
  - exact Hr.
  - exact Hr.
  - exact Hr.
  - exact Hr.
  - exact (reachable_run _ (SetServo name0 angle true) now _ Hr eq_refl).
  - exact (reachable_run _ (CenterAll true) now _ Hr eq_refl).
Qed.

Lemma robot_reachable_gait (t0 : Z) (r : Robot E) :
  Robot.robot_reachable t0 r -> reachable (gait r).
Proof.
  induction 1 as [|r c now r' _ IH Hx].
  - apply reachable_initial.
  - eapply exec_reachable; eassumption.
Qed.

End RobotFacts.

(** X22.  Whatever sequence of [Robot] methods is called, with whatever
    speeds, joint names and angles, and whatever the eye display does, the
    state of the gait controller is one reachable through the motion API:
    every joint of the robot has its current and target angle within its
    limits and a duty that is 0 or that of a pulse of 500 to 2500
    microseconds, and the bank holds exactly the eight configured joints. *)
Theorem robot_keeps_joints_safe `{Ticks} `{EyeAnimation E} (t0 : Z)
    (r : Robot E) :
  Robot.robot_reachable t0 r ->
  reachable (gait r)
  /\ (forall n, is_Some (servos (gait r) !! n) <-> n ∈ Config.ALL_SERVOS)
  /\ forall n s, servos (gait r) !! n = Some s -> servo_ok s /\ duty_ok s.
Proof.
  intros Hrr. pose proof (robot_reachable_gait t0 r Hrr) as Hr.
  destruct (reachable_configured _ Hr) as (Hout & Hin & _).
  split; [exact Hr|]. split.
  - intros n. split; [|apply Hin]. intros Hs.
    destruct (decide (n ∈ Config.ALL_SERVOS)) as [Hi|Ho]; [exact Hi|].
    rewrite (Hout n Ho) in Hs. destruct Hs as [? Hs]. discriminate.
  - intros n s Hl. split.
    + exact (bank_evolves_ok _ _ (reachable_evolves _ Hr) init_bank_ok n s Hl).
    + pose proof (reachable_evolves _ Hr n) as He.
      rewrite Hl in He. inversion He as [s0 ? Hev Hs0|]; subst.
      symmetry in Hs0. rewrite init_lookup in Hs0.
      destruct decide; [|discriminate]. injection Hs0 as <-.
      destruct (make_servo_static n) as (_ & Hlo & Hhi & _).
      eapply evolves_duty_ok; [exact Hev|rewrite ?Hlo, ?Hhi; lra..|].
      apply make_servo_duty_ok.
Qed.

(** X23.  [Robot.stop] ends all motion and detaches every servo: the mode
    is Idle, the queue is empty, every duty is 0, and the angles are as
    they were.  But [Robot.update] does not look at [running]: the first
    update after a stop succeeds, leaves a joint that was within half a
    degree of its target detached, and writes a pulse again to every joint
    that was not. *)
Theorem robot_stop_then_update `{Ticks} `{EyeAnimation E} (t0 : Z)
    (r : Robot E) :
  Robot.robot_reachable t0 r ->
  let r' := Robot.stop r in
  running r' = false
  /\ mode (gait r') = Idle
  /\ movement_queue (gait r') = []
  /\ (forall n s, servos (gait r') !! n = Some s -> pwm_duty s = 0%Z)
  /\ ServoController.get_positions (servos (gait r'))
     = ServoController.get_positions (servos (gait r))
  /\ ServoController.get_targets (servos (gait r'))
     = ServoController.get_targets (servos (gait r))
  /\ forall now, exists r'', Robot.update r' now = Some r''
       /\ forall n s, servos (gait r) !! n = Some s ->
            exists s'', servos (gait r'') !! n = Some s''
              /\ (distance s < 0.5 -> pwm_duty s'' = 0%Z)
              /\ (0.5 <= distance s -> (1638 <= pwm_duty s'' <= 8191)%Z).
Proof.
  intros Hrr. cbv zeta.
  pose proof (robot_reachable_gait t0 r Hrr) as Hr.
  destruct (reachable_configured _ Hr) as (_ & _ & Hst).
  assert (Hb : servos (gait (Robot.stop r))
               = Servo.detach <$> servos (gait r)) by reflexivity.
  split; [reflexivity|]. split; [reflexivity|]. split; [reflexivity|].
  split; [|split; [|split]].
  - intros n s. rewrite Hb, lookup_fmap.
    destruct (servos (gait r) !! n); [|discriminate].
    intros Hs. apply (inj Some) in Hs. now subst s.
  - rewrite Hb. apply map_eq. intros n.
    unfold ServoController.get_positions. rewrite !lookup_fmap.
    now destruct (servos (gait r) !! n).
  - rewrite Hb. apply map_eq. intros n.
    unfold ServoController.get_targets. rewrite !lookup_fmap.
    now destruct (servos (gait r) !! n).
  - intros now. unfold Robot.update.
    change (GaitController.update (gait (Robot.stop r)) ?dt now)
      with (Some (gait (Robot.stop r))).
    eexists. split; [reflexivity|]. intros n s Hs.
    cbn [gait]. change (servos (GaitController.with_servos ?g ?b)) with b.
    rewrite update_all_lookup, Hb, lookup_fmap, Hs.
    cbn [fmap option_fmap option_map].
    eexists. split; [reflexivity|].
    destruct (Hst n s Hs) as (_ & Hlo & Hhi & _).
    unfold Servo.update.
    change (current_angle (Servo.detach s)) with (current_angle s).
    change (target_angle (Servo.detach s)) with (target_angle s).
    fold (distance s). destruct Rlt_dec as [Hlt|Hge]; cbn [fst].
    + split; [reflexivity|lra].
    + split; [intros; lra|]. intros _. simpl.
      apply angle_to_duty_bounds.
      change (Servo.clamp (Servo.detach s) ?a) with (Servo.clamp s a).
      assert (Hm : min_angle s <= max_angle s) by lra.
      pose proof (clamp_range s
        (current_angle s
         + Rmax (- (Servo.default_speed (Servo.detach s)
                    * (IZR (ticks_diff now (last_update (Robot.stop r)))
                       / 1000.0)))
             (Rmin (Servo.default_speed (Servo.detach s)
                    * (IZR (ticks_diff now (last_update (Robot.stop r)))
                       / 1000.0))
                (target_angle s - current_angle s))) Hm) as Hc.
      rewrite Hlo, Hhi in Hc. exact Hc.
Qed.

(** ** The further properties at concrete inputs *)

Lemma angle_to_duty_range_witness :
  0 <= 90 <= 180
  /\ (1638 <= Servo._angle_to_duty (ServoController.make_servo "L1") 90
      <= 8191)%Z.
Proof.
  assert (Ha : 0 <= 90 <= 180) by lra.
  split; [exact Ha|].
  destruct (angle_to_duty_range (ServoController.make_servo "L1") 90 Ha)
    as [Hr _].
  exact Hr.
Defined.

Lemma angle_to_duty_monotone_witness :
  let s := Servo.__init__ "R1" 25 false (0, 180) 90 in
  45 <= 90 /\ (Servo._angle_to_duty s 45 <= Servo._angle_to_duty s 90)%Z.
Proof.
  cbv zeta. assert (Hab : 45 <= 90) by lra.
  split; [exact Hab|].
  exact (angle_to_duty_monotone (Servo.__init__ "R1" 25 false (0, 180) 90)
           45 90 Hab).
Defined.

Lemma R1_configured : "R1" ∈ Config.ALL_SERVOS.
Proof. apply (bool_decide_unpack _). vm_compute. reflexivity. Qed.

Lemma duty_within_pulse_range_witness :
  @reachable micropython_ticks initial
  /\ servos initial !! "R1" = Some (ServoController.make_servo "R1")
  /\ duty_ok (ServoController.make_servo "R1").
Proof.
  pose proof (initial_lookup "R1" R1_configured) as Hl.
  split; [apply reachable_initial|]. split; [exact Hl|].
  exact (@duty_within_pulse_range micropython_ticks initial "R1" _
           reachable_initial Hl).
Defined.

Lemma attach_after_detach_witness :
  let s := ServoController.make_servo "R1" in
  servo_ok s
  /\ current_angle (Servo.attach (Servo.detach s)) = current_angle s.
Proof.
  cbv zeta. pose proof (make_servo_ok "R1") as Hs.
  split; [exact Hs|].
  destruct (attach_after_detach (ServoController.make_servo "R1") Hs)
    as (_ & _ & _ & Hc & _).
  exact Hc.
Defined.

Lemma set_positions_order_irrelevant_witness :
  let pos := [("R1", 60); ("R3", 45)] in
  let pos' := [("R3", 45); ("R1", 60)] in
  NoDup pos.*1 /\ pos ≡ₚ pos'
  /\ ServoController.set_positions ServoController.__init__ pos true
     = ServoController.set_positions ServoController.__init__ pos' true.
Proof.
  cbv zeta.
  assert (Hnd : NoDup ([("R1", 60); ("R3", 45)] : positions).*1)
    by (apply (bool_decide_unpack _); vm_compute; reflexivity).
  assert (Hp : ([("R1", 60); ("R3", 45)] : positions)
               ≡ₚ [("R3", 45); ("R1", 60)]) by apply perm_swap.
  split; [exact Hnd|]. split; [exact Hp|].
  exact (set_positions_order_irrelevant ServoController.__init__ _ _ true
           Hnd Hp).
Defined.

Lemma update_all_converges_witness :
  bank_ok ServoController.__init__ /\ 0 < 0.02
  /\ exists n, forall m, (n <= m)%nat ->
       ServoController.update_all
         (bank_steps 0.02 m ServoController.__init__) 0.02
       = (bank_steps 0.02 n ServoController.__init__, false).
Proof.
  assert (Hdt : 0 < 0.02) by lra.
  split; [exact init_bank_ok|]. split; [exact Hdt|].
  exact (update_all_converges ServoController.__init__ 0.02 init_bank_ok Hdt).
Defined.

Lemma walk_positions_in_range_witness :
  shipped_gait initial /\ -1 <= 1 <= 1 /\ -1 <= 0 <= 1
  /\ Forall (fun na : string * R => 0 <= na.2 <= 180)
       (GaitController.get_walk_positions initial 0.25 1 0).
Proof.
  assert (Hd : -1 <= 1 <= 1) by lra.
  assert (Ht : -1 <= 0 <= 1) by lra.
  split; [exact initial_shipped_gait|]. split; [exact Hd|].
  split; [exact Ht|].
  pose proof (walk_positions_in_range initial 0.25 1 0 initial_shipped_gait
                Hd Ht) as Hall.
  eapply Forall_impl; [exact Hall|]. intros na Hna. exact (proj1 Hna).
Defined.

Lemma reachable_walking_forward : @reachable micropython_ticks walking_forward.
Proof.
  apply (reachable_run initial (StartWalk 1 0 1) 0);
    [apply reachable_initial|reflexivity].
Qed.

Lemma walking_forward_speed : walk_speed walking_forward = 1.
Proof. reflexivity. Qed.

Lemma walking_forward_phase : walk_phase walking_forward = 0.0.
Proof. reflexivity. Qed.

Lemma walking_bypasses_smoothing_witness :
  @reachable micropython_ticks walking_forward
  /\ is_walking walking_forward = true
  /\ exists g', @GaitController.update micropython_ticks walking_forward
                  0.02 20 = Some g'
       /\ forall dt', ServoController.update_all (servos g') dt'
                      = (servos g', false).
Proof.
  assert (Hw : is_walking walking_forward = true) by reflexivity.
  assert (Hs : walk_speed walking_forward <> 0)
    by (rewrite walking_forward_speed; lra).
  split; [exact reachable_walking_forward|]. split; [exact Hw|].
  destruct (update_walk_phase walking_forward 0.02 Hw Hs) as (g' & Hu & _).
  assert (Hu' : @GaitController.update micropython_ticks walking_forward
                  0.02 20 = Some g').
  { unfold GaitController.update. rewrite Hw. exact Hu. }
  exists g'. split; [exact Hu'|].
  destruct (@walking_bypasses_smoothing micropython_ticks walking_forward g'
              0.02 20 reachable_walking_forward Hw Hu') as (_ & Hall & _).
  exact Hall.
Defined.

Lemma set_pose_immediate_exact_witness :
  @reachable micropython_ticks initial
  /\ ServoController.get_positions
       (servos (GaitController.set_pose initial "sit" true))
     = list_to_map (GaitController.get_pose initial "sit").
Proof.
  split; [apply reachable_initial|].
  destruct (@set_pose_immediate_exact micropython_ticks initial "sit"
              reachable_initial) as [Hp _].
  exact Hp.
Defined.

Lemma keyframe_moves_named_joints_only_witness :
  movement_queue waving
  = (Some [("R1", 60)], 0.2)
    :: [(Some [("R1", 120)], 0.2); (Some [("R1", 60)], 0.2);
        (Some [("R1", 120)], 0.2);
        (Some [("R1", 90); ("R3", stand_knee initial)], 0.3)]
  /\ forall n, n ∉ ([("R1", 60)] : positions).*1 ->
       servos (fst (GaitController._next waving 300)) !! n
       = servos waving !! n.
Proof.
  split; [exact waving_queue|].
  destruct (keyframe_moves_named_joints_only waving 300 _ _ _ waving_queue)
    as [_ Hp].
  destruct (Hp [("R1", 60)] eq_refl) as [Hn _]. exact Hn.
Defined.

Lemma stop_walk_is_smooth_witness :
  @reachable micropython_ticks walking_forward
  /\ ServoController.get_positions
       (servos (GaitController.stop_walk walking_forward))
     = ServoController.get_positions (servos walking_forward).
Proof.
  split; [exact reachable_walking_forward|].
  destruct (@stop_walk_is_smooth micropython_ticks walking_forward
              reachable_walking_forward) as (_ & _ & Hp & _).
  exact Hp.
Defined.

Lemma center_all_resets_witness :
  @reachable micropython_ticks with_servos_R1_500
  /\ ServoController.get_positions
       (ServoController.center_all (servos with_servos_R1_500) true)
     = ServoController.get_positions ServoController.__init__.
Proof.
  assert (Hr : @reachable micropython_ticks with_servos_R1_500).
  { apply (reachable_run initial (SetServo "R1" 500 true) 0);
      [apply reachable_initial|reflexivity]. }
  split; [exact Hr|].
  destruct (@center_all_resets micropython_ticks with_servos_R1_500 Hr)
    as [Hp _].
  exact Hp.
Defined.

Lemma update_walk_phase_small_step_witness :
  is_walking walking_forward = true /\ 0 < walk_speed walking_forward
  /\ 0 < 0.02 /\ 0 <= walk_phase walking_forward < 1
  /\ 0.02 / (0.8 / walk_speed walking_forward) < 1
  /\ exists g', GaitController.update_walk walking_forward 0.02 = Some g'
       /\ 0 <= walk_phase g' < 1.
Proof.
  assert (Hw : is_walking walking_forward = true) by reflexivity.
  assert (Hs : 0 < walk_speed walking_forward)
    by (rewrite walking_forward_speed; lra).
  assert (Hdt : 0 < 0.02) by lra.
  assert (Hp : 0 <= walk_phase walking_forward < 1)
    by (rewrite walking_forward_phase; lra).
  assert (Hi : 0.02 / (0.8 / walk_speed walking_forward) < 1)
    by (rewrite walking_forward_speed; lra).
  split; [exact Hw|]. split; [exact Hs|]. split; [exact Hdt|].
  split; [exact Hp|]. split; [exact Hi|].
  destruct (update_walk_phase_small_step walking_forward 0.02 Hw Hs Hdt Hp Hi)
    as (g' & Hu & Hr & _).
  exists g'. split; [exact Hu|exact Hr].
Defined.

Lemma robot_keeps_joints_safe_witness :
  @Robot.robot_reachable micropython_ticks unit no_eyes 0 fresh_robot
  /\ @reachable micropython_ticks (gait fresh_robot).
Proof.
  pose proof (@Robot.robot_reachable_init micropython_ticks unit no_eyes 0)
    as Hr.
  split; [exact Hr|].
  destruct (@robot_keeps_joints_safe micropython_ticks unit no_eyes 0
              fresh_robot Hr) as [Hg _].
  exact Hg.
Defined.

Lemma robot_stop_then_update_witness :
  @Robot.robot_reachable micropython_ticks unit no_eyes 0 fresh_robot
  /\ mode (gait (Robot.stop fresh_robot)) = Idle.
Proof.
  pose proof (@Robot.robot_reachable_init micropython_ticks unit no_eyes 0)
    as Hr.
  split; [exact Hr|].
  destruct (@robot_stop_then_update micropython_ticks unit no_eyes 0
              fresh_robot Hr) as (_ & Hm & _).
  exact Hm.
Defined.

